(** * Hymnal extractor: notation cleaning and structure detection

    A shallow embedding of [text_cleaner.py] (class [TextCleaner]) and
    [struture_detector.py] (class [StructureDetector]) with the constants
    of [config/config.py], of the extraction loops of [text_extrator.py],
    of the JSON and Excel exporters of [file_exporters.py] and of the
    report counts of [report_generator.py], followed by the properties
    proved about them.  Two rules of the detector are also embedded as
    [invoices.py], the single-file version of the program, has them.

    Python strings are sequences of Unicode code points: a character is
    its code point ([N]) and a [str] is a list of them.  The tables of the
    Unicode character database that the Python runtime consults
    ([str.isspace], [str.upper], the regex categories ...) are not part of
    the repository; they are the fields of [UnicodeDB], and every
    definition takes the database as its first argument.  [basic_latin]
    fills the tables in for the code points below 128, which is enough to
    run the embedding on ASCII text. *)

From Stdlib Require Import Ascii String DecimalString.
From Stdlib Require Import List NArith Arith Bool Lia.
Import ListNotations.

(** ** Characters and strings *)

Definition char := N.
Definition str := list char.

Definition ord (a : ascii) : char := N_of_ascii a.

(** An ASCII literal as a Python string. *)
Definition lit (s : string) : str := map ord (list_ascii_of_string s).

Definition LF : char := 10%N.
Definition SP : char := 32%N.

(** [not l] for a list. *)
Definition is_empty_list {A : Type} (l : list A) : bool :=
  match l with [] => true | _ :: _ => false end.

(** [not s] for a string. *)
Definition is_empty (s : str) : bool :=
  match s with [] => true | _ :: _ => false end.

(** The character tables of the Python runtime. *)
Record UnicodeDB := {
  isspace   : char -> bool;      (* str.isspace, regex \s, split(), strip() *)
  isdecimal : char -> bool;      (* regex \d *)
  isalnum   : char -> bool;      (* with '_' : regex \w, used by \b *)
  islower   : char -> bool;
  istitle   : char -> bool;
  isupper   : char -> bool;
  toupper   : char -> list char; (* full upper-case mapping of str.upper *)
  iscased   : char -> bool;      (* _sre.unicode_iscased *)
  tolower   : char -> char;      (* _sre.unicode_tolower *)
  fixes     : char -> list char  (* sre's _ignorecase_fixes *)
}.

Section Strings.

Variable db : UnicodeDB.

(** [s.split(sep)] for a one-character separator. *)
Fixpoint split_on (sep : char) (s : str) : list str :=
  match s with
  | [] => [[]]
  | c :: s' =>
      if N.eqb c sep then [] :: split_on sep s'
      else match split_on sep s' with
           | p :: ps => (c :: p) :: ps
           | [] => [[c]]
           end
  end.

(** [sep.join(pieces)]. *)
Fixpoint join (sep : str) (pieces : list str) : str :=
  match pieces with
  | [] => []
  | [p] => p
  | p :: ps => p ++ sep ++ join sep ps
  end.

Fixpoint lstrip (s : str) : str :=
  match s with
  | [] => []
  | c :: s' => if isspace db c then lstrip s' else s
  end.

Definition rstrip (s : str) : str := rev (lstrip (rev s)).

(** [s.strip()]. *)
Definition strip (s : str) : str := rstrip (lstrip s).

(** [s.split()]: the maximal runs of non-whitespace characters. *)
Fixpoint split_ws (s : str) : list str :=
  match s with
  | [] => []
  | c :: s' =>
      if isspace db c then split_ws s'
      else match s' with
           | [] => [[c]]
           | d :: _ =>
               if isspace db d then [c] :: split_ws s'
               else match split_ws s' with
                    | w :: ws => (c :: w) :: ws
                    | [] => [[c]]
                    end
           end
  end.

(** [s.replace(c, '')]. *)
Definition remove_char (c : char) (s : str) : str :=
  filter (fun x => negb (N.eqb x c)) s.

(** [s.upper()]. *)
Definition upper (s : str) : str := flat_map (toupper db) s.

(** [s.isupper()]: no lower-case or title-case character, and at least
    one upper-case character. *)
Definition str_isupper (s : str) : bool :=
  forallb (fun c => negb (islower db c || istitle db c)) s
  && existsb (isupper db) s.

Fixpoint starts_with (p s : str) : bool :=
  match p, s with
  | [], _ => true
  | x :: p', y :: s' => N.eqb x y && starts_with p' s'
  | _ :: _, [] => false
  end.

(** [p in s]. *)
Fixpoint contains (p s : str) : bool :=
  starts_with p s
  || match s with
     | [] => false
     | _ :: s' => contains p s'
     end.

(** [str(n)]. *)
Definition str_of_nat (n : nat) : str :=
  lit (NilEmpty.string_of_uint (Nat.to_uint n)).

(** ** Regular expressions

    The patterns of the program are sequences of zero-width assertions,
    single character classes and greedy repetitions of a character class.
    [run] is the backtracking matcher of Python's [re] on that fragment:
    it returns the substring consumed by each atom (greedy repetitions try
    the longest run first and give characters back one at a time). *)

Inductive item :=
| Lit (c : char)
| Rng (lo hi : char)
| Cat_space
| Cat_digit.

Definition charset := list item.

Definition lits (s : string) : charset := map Lit (lit s).

Inductive cls :=
| Dot
| Set_ (cs : charset).

Inductive atom :=
| At_beginning                 (* ^  *)
| At_end                       (* $  *)
| At_boundary                  (* \b *)
| One (c : cls)
| Rep (min : nat) (c : cls).   (* c{min,} : + is Rep 1, * is Rep 0 *)

Definition in_item (it : item) (c : char) : bool :=
  match it with
  | Lit k => N.eqb c k
  | Rng lo hi => N.leb lo c && N.leb c hi
  | Cat_space => isspace db c
  | Cat_digit => isdecimal db c
  end.

Definition in_set (cs : charset) (c : char) : bool :=
  existsb (fun it => in_item it c) cs.

Definition code_range (lo hi : char) : list char :=
  map N.of_nat (seq (N.to_nat lo) (S (N.to_nat hi) - N.to_nat lo)).

(** Under [re.IGNORECASE] the compiler lower-cases the members of a class
    and adds their [fixes]; when the class has a cased member the subject
    character is lower-cased before the test. *)
Definition folds_to (k c : char) : bool :=
  let lo := tolower db k in
  N.eqb c lo || existsb (N.eqb c) (fixes db lo).

Definition in_item_ic (it : item) (c : char) : bool :=
  match it with
  | Lit k => folds_to k c
  | Rng lo hi => existsb (fun k => folds_to k c) (code_range lo hi)
  | Cat_space => isspace db c
  | Cat_digit => isdecimal db c
  end.

Definition item_cased (it : item) : bool :=
  match it with
  | Lit k => iscased db k
  | Rng lo hi => existsb (iscased db) (code_range lo hi)
  | Cat_space | Cat_digit => false
  end.

Definition in_set_ic (cs : charset) (c : char) : bool :=
  let c' := if existsb item_cased cs then tolower db c else c in
  existsb (fun it => in_item_ic it c') cs.

Definition cls_match (ignorecase : bool) (cl : cls) (c : char) : bool :=
  match cl with
  | Dot => negb (N.eqb c LF)
  | Set_ cs => if ignorecase then in_set_ic cs c else in_set cs c
  end.

Definition is_word (c : char) : bool := isalnum db c || N.eqb c (ord "_").

Definition word_before (prev : option char) : bool :=
  match prev with Some c => is_word c | None => false end.

Definition word_after (s : str) : bool :=
  match s with c :: _ => is_word c | [] => false end.

(** [$]: at the end, or before a final line feed. *)
Definition at_end (s : str) : bool :=
  match s with
  | [] => true
  | [c] => N.eqb c LF
  | _ => false
  end.

Definition continuation := option char -> str -> option (list str).

(** Greedy repetition of a class, then the continuation [k]; [prev] is
    the character before the current position ([None] at the start). *)
Fixpoint rep (p : char -> bool) (k : continuation) (min : nat)
    (prev : option char) (s : str) : option (list str) :=
  let stop :=
    match min with
    | 0 => option_map (cons []) (k prev s)
    | S _ => None
    end in
  match s with
  | c :: s' =>
      if p c then
        match rep p k (pred min) (Some c) s' with
        | Some (g :: gs) => Some ((c :: g) :: gs)
        | _ => stop
        end
      else stop
  | [] => stop
  end.

Fixpoint run (ignorecase : bool) (pat : list atom) (prev : option char)
    (s : str) : option (list str) :=
  match pat with
  | [] => Some []
  | a :: pat' =>
      match a with
      | At_beginning =>
          match prev with
          | None => option_map (cons []) (run ignorecase pat' prev s)
          | Some _ => None
          end
      | At_end =>
          if at_end s then option_map (cons []) (run ignorecase pat' prev s)
          else None
      | At_boundary =>
          if xorb (word_before prev) (word_after s)
          then option_map (cons []) (run ignorecase pat' prev s)
          else None
      | One cl =>
          match s with
          | c :: s' =>
              if cls_match ignorecase cl c
              then option_map (cons [c]) (run ignorecase pat' (Some c) s')
              else None
          | [] => None
          end
      | Rep min cl =>
          rep (cls_match ignorecase cl) (run ignorecase pat') min prev s
      end
  end.

(** [re.match(pat, s)]: the pieces consumed by the atoms. *)
Definition re_match (ignorecase : bool) (pat : list atom) (s : str)
  : option (list str) :=
  run ignorecase pat None s.

(** [re.search(pat, s)], scanning from the position after [prev]. *)
Fixpoint search_from (ignorecase : bool) (pat : list atom)
    (prev : option char) (s : str) : option (list str) :=
  match run ignorecase pat prev s with
  | Some g => Some g
  | None =>
      match s with
      | [] => None
      | c :: s' => search_from ignorecase pat (Some c) s'
      end
  end.

Definition re_search (ignorecase : bool) (pat : list atom) (s : str)
  : option (list str) :=
  search_from ignorecase pat None s.

(** [re.sub(pat, '', s)] for a pattern that never matches the empty
    string: [skip] counts the characters of the current match still to be
    dropped. *)
Fixpoint sub_from (ignorecase : bool) (pat : list atom) (skip : nat)
    (prev : option char) (s : str) : str :=
  match s with
  | [] => []
  | c :: s' =>
      match skip with
      | S n => sub_from ignorecase pat n (Some c) s'
      | 0 =>
          match run ignorecase pat prev s with
          | Some g =>
              match length (concat g) with
              | S n => sub_from ignorecase pat n (Some c) s'
              | 0 => c :: sub_from ignorecase pat 0 (Some c) s'
              end
          | None => c :: sub_from ignorecase pat 0 (Some c) s'
          end
      end
  end.

Definition re_sub (ignorecase : bool) (pat : list atom) (s : str) : str :=
  sub_from ignorecase pat 0 None s.

(** [re.findall(pat, s)] for a pattern without groups that never matches
    the empty string. *)
Fixpoint findall_from (ignorecase : bool) (pat : list atom) (skip : nat)
    (prev : option char) (s : str) : list str :=
  match s with
  | [] => []
  | c :: s' =>
      match skip with
      | S n => findall_from ignorecase pat n (Some c) s'
      | 0 =>
          match run ignorecase pat prev s with
          | Some g =>
              concat g
              :: findall_from ignorecase pat (pred (length (concat g)))
                   (Some c) s'
          | None => findall_from ignorecase pat 0 (Some c) s'
          end
      end
  end.

Definition re_findall (ignorecase : bool) (pat : list atom) (s : str)
  : list str :=
  findall_from ignorecase pat 0 None s.

End Strings.

(** ** Constants of [config/config.py] *)

Definition EM_DASH : char := 8212%N.

(** [MUSICAL_PATTERNS], in the order of the list. *)
Definition MUSICAL_PATTERNS : list (list atom) :=
  [ (* [:]+[-—.:]+[|]* *)
    [ Rep 1 (Set_ (lits ":"));
      Rep 1 (Set_ (lits "-" ++ [Lit EM_DASH] ++ lits ".:"));
      Rep 0 (Set_ (lits "|")) ];
    (* [smtdfrl]+[,\']*\s*[:—.-]+\s*[smtdfrl,\']* *)
    [ Rep 1 (Set_ (lits "smtdfrl"));
      Rep 0 (Set_ (lits ",'"));
      Rep 0 (Set_ [Cat_space]);
      Rep 1 (Set_ (lits ":" ++ [Lit EM_DASH] ++ lits ".-"));
      Rep 0 (Set_ [Cat_space]);
      Rep 0 (Set_ (lits "smtdfrl,'")) ];
    (* [|]+\s*[:.—-]+\s*[|]* *)
    [ Rep 1 (Set_ (lits "|"));
      Rep 0 (Set_ [Cat_space]);
      Rep 1 (Set_ (lits ":." ++ [Lit EM_DASH] ++ lits "-"));
      Rep 0 (Set_ [Cat_space]);
      Rep 0 (Set_ (lits "|")) ];
    (* ^[sd,\':\-—|.\s]+$ *)
    [ At_beginning;
      Rep 1 (Set_ (lits "sd,':-" ++ [Lit EM_DASH] ++ lits "|." ++ [Cat_space]));
      At_end ];
    (* [drmfslti]+[,\']*\s*[:\-—.]+\s*[drmfslti,\']* *)
    [ Rep 1 (Set_ (lits "drmfslti"));
      Rep 0 (Set_ (lits ",'"));
      Rep 0 (Set_ [Cat_space]);
      Rep 1 (Set_ (lits ":-" ++ [Lit EM_DASH] ++ lits "."));
      Rep 0 (Set_ [Cat_space]);
      Rep 0 (Set_ (lits "drmfslti,'")) ];
    (* \b[a-z][,\']+\s*[:\-—.]+ *)
    [ At_boundary;
      One (Set_ [Rng (ord "a") (ord "z")]);
      Rep 1 (Set_ (lits ",'"));
      Rep 0 (Set_ [Cat_space]);
      Rep 1 (Set_ (lits ":-" ++ [Lit EM_DASH] ++ lits ".")) ];
    (* [:\-—.]{3,} *)
    [ Rep 3 (Set_ (lits ":-" ++ [Lit EM_DASH] ++ lits ".")) ];
    (* ^[|]+.*[|]+$ *)
    [ At_beginning;
      Rep 1 (Set_ (lits "|"));
      Rep 0 Dot;
      Rep 1 (Set_ (lits "|"));
      At_end ];
    (* ^\s*[:.—-]+\s*$ *)
    [ At_beginning;
      Rep 0 (Set_ [Cat_space]);
      Rep 1 (Set_ (lits ":." ++ [Lit EM_DASH] ++ lits "-"));
      Rep 0 (Set_ [Cat_space]);
      At_end ];
    (* \b[smtdfrl]+[,\']*[:\-—.]+[smtdfrl,\']*\b *)
    [ At_boundary;
      Rep 1 (Set_ (lits "smtdfrl"));
      Rep 0 (Set_ (lits ",'"));
      Rep 1 (Set_ (lits ":-" ++ [Lit EM_DASH] ++ lits "."));
      Rep 0 (Set_ (lits "smtdfrl,'"));
      At_boundary ] ].

(** ['CHORUS', 'CORO', 'REFRAIN', 'CÔRO'] (Ô is U+00D4). *)
Definition CHORUS_KEYWORDS : list str :=
  [ lit "CHORUS"; lit "CORO"; lit "REFRAIN"; lit "C" ++ [212%N] ++ lit "RO" ].

Definition MAX_VERSE_LINES : nat := 6.
Definition MAX_CHORUS_LINES : nat := 30.

(** [MUSICAL_CHAR_THRESHOLD = 0.6], as the fraction 6/10.  The program
    compares the float quotient [musical_chars / total_chars] with the
    float [0.6]; for two counts below 10^15 that comparison and the exact
    one, [6 * total_chars < 10 * musical_chars], agree (the double nearest
    to 0.6 lies below 3/5 by less than 1/(5 * 10^15), and division rounds
    monotonically). *)
Definition MUSICAL_CHAR_THRESHOLD : nat * nat := (6, 10).

Definition exceeds (musical_chars total_chars : nat) (threshold : nat * nat)
  : bool :=
  fst threshold * total_chars <? snd threshold * musical_chars.

(** ** [text_cleaner.py] *)

Section TextCleaner.

Variable db : UnicodeDB.

(** The class of [re.findall(r'[:\-â€”.|,\'smdftlri]', line)].  The source
    file holds the three characters U+00E2, U+20AC, U+201D where the
    patterns of [config.py] have an em-dash. *)
Definition MUSICAL_CLASS : charset :=
  lits ":-" ++ [Lit 226%N; Lit 8364%N; Lit 8221%N] ++ lits ".|,'smdftlri".

Definition musical_chars (line : str) : nat :=
  length (re_findall db false [One (Set_ MUSICAL_CLASS)] line).

Definition total_chars (line : str) : nat :=
  length (remove_char SP line).

Definition _is_musical_notation (line : str) : bool :=
  (0 <? total_chars line)
  && exceeds (musical_chars line) (total_chars line) MUSICAL_CHAR_THRESHOLD.

Definition _apply_pattern_cleaning (line : str) : str :=
  let cleaned_line :=
    fold_left (fun cleaned pattern => re_sub db true pattern cleaned)
      MUSICAL_PATTERNS line in
  join [SP] (split_ws db cleaned_line).

(** [[a-zA-Z]{3,}] *)
Definition THREE_LETTERS : list atom :=
  [ Rep 3 (Set_ [Rng (ord "a") (ord "z"); Rng (ord "A") (ord "Z")]) ].

Definition _has_valid_content (line : str) : bool :=
  if is_empty line || (length (strip db line) <=? 2) then false
  else match re_search db false THREE_LETTERS line with
       | Some _ => true
       | None => false
       end.

(** The loop of [clean_musical_notation] over the lines. *)
Fixpoint cleaned_lines (lines : list str) : list str :=
  match lines with
  | [] => []
  | line :: rest =>
      let original_line := strip db line in
      if is_empty original_line then cleaned_lines rest
      else if _is_musical_notation original_line then cleaned_lines rest
      else
        let cleaned_line := _apply_pattern_cleaning original_line in
        if _has_valid_content cleaned_line
        then cleaned_line :: cleaned_lines rest
        else cleaned_lines rest
  end.

Definition clean_musical_notation (text : str) : str :=
  join [LF] (cleaned_lines (split_on LF text)).

End TextCleaner.

(** ** [struture_detector.py] *)

Record verse := {
  verse_number : str;
  verse_lines : list str
}.

Record song := {
  song_number : str;
  song_title : str;
  verses : list verse;
  chorus : list str
}.

(** The returned dictionary; of [metadata] only [total_lines] is kept
    ([extraction_date] is the wall clock). *)
Record structure := {
  title : str;
  songs : list song;
  total_lines : nat
}.

(** The variables of the main loop of [detect_structure]. *)
Record state := {
  st_title : str;
  st_songs : list song;
  current_song : option song;
  cursor : nat
}.

Definition DIGITS : atom := Rep 1 (Set_ [Cat_digit]).

(** [^(\d+)\s+(.+)] *)
Definition NUMBERED_LINE : list atom :=
  [ At_beginning; DIGITS; Rep 1 (Set_ [Cat_space]); Rep 1 Dot ].

(** [^\d+\s] *)
Definition LEADING_NUMBER : list atom :=
  [ At_beginning; DIGITS; One (Set_ [Cat_space]) ].

(** [^\d+] *)
Definition LEADING_DIGITS : list atom := [ At_beginning; DIGITS ].

Section StructureDetector.

Variable db : UnicodeDB.

(** [re.match(r'^(\d+)\s+(.+)', line)] with its groups 1 and 2. *)
Definition numbered_match (line : str) : option (str * str) :=
  match re_match db false NUMBERED_LINE line with
  | Some [_; group1; _; group2] => Some (group1, group2)
  | _ => None
  end.

(** [re.match(r'^\d+\s', line)] as a truth value. *)
Definition leading_number (line : str) : bool :=
  match re_match db false LEADING_NUMBER line with
  | Some _ => true
  | None => false
  end.

Definition leading_digits (line : str) : bool :=
  match re_match db false LEADING_DIGITS line with
  | Some _ => true
  | None => false
  end.

Definition _is_song_title (lines : list str) (i : nat) : bool :=
  if S i <? length lines then
    let next_line := strip db (nth (S i) lines []) in
    if leading_number next_line then
      let numbered_sequence :=
        length (filter (fun l => leading_number (strip db l))
                  (firstn 5 (skipn i lines))) in
      if 3 <=? numbered_sequence then false else true
    else true
  else true.

(** The song that [_create_new_song] returns; the caller's song list
    with the previous song appended is [close_song]. *)
Definition _create_new_song (song_match : str * str) : song :=
  {| song_number := fst song_match;
     song_title := strip db (snd song_match);
     verses := [];
     chorus := [] |}.

Definition close_song (songs : list song) (current : option song)
  : list song :=
  match current with
  | Some s => songs ++ [s]
  | None => songs
  end.

Definition is_some {A : Type} (o : option A) : bool :=
  match o with Some _ => true | None => false end.

Definition _is_main_title (line : str) (title : str)
    (current : option song) : bool :=
  str_isupper db line && (10 <? length line)
  && is_empty title && negb (is_some current).

Definition _is_chorus_line (line : str) : bool :=
  existsb (fun keyword => contains keyword (upper db line)) CHORUS_KEYWORDS.

(** The [while] loop of [_extract_chorus]: [rest] is [lines[j:]] and
    [limit] is [i + self.max_chorus_lines]. *)
Fixpoint chorus_loop (limit : nat) (rest : list str) (j : nat)
    (chorus_lines : list str) : list str * nat :=
  match rest with
  | [] => (chorus_lines, j)
  | l :: rest' =>
      if j <? limit then
        let chorus_line := strip db l in
        if is_empty chorus_line then
          chorus_loop limit rest' (S j) chorus_lines
        else if leading_number chorus_line
                && (3 <? length (split_ws db chorus_line))
        then (chorus_lines, j)
        else if _is_chorus_line chorus_line then (chorus_lines, j)
        else chorus_loop limit rest' (S j) (chorus_lines ++ [chorus_line])
      else (chorus_lines, j)
  end.

Definition _extract_chorus (lines : list str) (i : nat) : list str * nat :=
  chorus_loop (i + MAX_CHORUS_LINES) (skipn (S i) lines) (S i) [].

(** The [while] loop of [_extract_numbered_verse]. *)
Fixpoint numbered_loop (rest : list str) (j : nat) (lines_acc : list str)
  : list str * nat :=
  match rest with
  | [] => (lines_acc, j)
  | l :: rest' =>
      if length lines_acc <? MAX_VERSE_LINES then
        let next_line := strip db l in
        if is_empty next_line then numbered_loop rest' (S j) lines_acc
        else if leading_number next_line then (lines_acc, j)
        else if _is_chorus_line next_line then (lines_acc, j)
        else numbered_loop rest' (S j) (lines_acc ++ [next_line])
      else (lines_acc, j)
  end.

Definition _extract_numbered_verse (lines : list str) (i : nat)
    (verse_match : str * str) : option verse * nat :=
  let verse_num := fst verse_match in
  let verse_text := snd verse_match in
  if length (split_ws db verse_text) <=? 15 then
    let '(collected, j) :=
      numbered_loop (skipn (S i) lines) (S i) [verse_text] in
    if 10 <? length (strip db (join [SP] collected)) then
      (Some {| verse_number := verse_num; verse_lines := collected |}, j)
    else (None, S i)
  else (None, S i).

Definition _is_potential_verse (line : str) : bool :=
  (5 <? length line) && negb (leading_digits line)
  && (1 <? length (split_ws db line)) && negb (str_isupper db line).

(** The [while] loop of [_extract_unnumbered_verse]. *)
Fixpoint unnumbered_loop (rest : list str) (j : nat) (lines_acc : list str)
  : list str * nat :=
  match rest with
  | [] => (lines_acc, j)
  | l :: rest' =>
      if length lines_acc <? 4 then
        let next_line := strip db l in
        if is_empty next_line then unnumbered_loop rest' (S j) lines_acc
        else if leading_number next_line
                && (3 <? length (split_ws db next_line))
        then (lines_acc, j)
        else if _is_chorus_line next_line then (lines_acc, j)
        else unnumbered_loop rest' (S j) (lines_acc ++ [next_line])
      else (lines_acc, j)
  end.

Definition _extract_unnumbered_verse (lines : list str) (i : nat)
    (current : song) : option verse * nat :=
  let '(collected, j) :=
    unnumbered_loop (skipn (S i) lines) (S i) [strip db (nth i lines [])] in
  if (length (verses current) =? 0)
     || (15 <? length (join [SP] collected))
  then
    (Some {| verse_number := str_of_nat (length (verses current) + 1);
             verse_lines := collected |}, j)
  else (None, j).

Definition _filter_valid_songs (all : list song) : list song :=
  filter (fun s => negb (is_empty_list (verses s))
                   || negb (is_empty_list (chorus s))) all.

Definition set_chorus (s : song) (chorus_lines : list str) : song :=
  {| song_number := song_number s; song_title := song_title s;
     verses := verses s; chorus := chorus_lines |}.

(** [if verse_data: current_song['verses'].append(verse_data)]. *)
Definition append_verse (s : song) (verse_data : option verse) : song :=
  match verse_data with
  | Some v =>
      {| song_number := song_number s; song_title := song_title s;
         verses := verses s ++ [v]; chorus := chorus s |}
  | None => s
  end.

Definition set_current (st : state) (s : song) (next_i : nat) : state :=
  {| st_title := st_title st; st_songs := st_songs st;
     current_song := Some s; cursor := next_i |}.

Definition advance (st : state) : state :=
  {| st_title := st_title st; st_songs := st_songs st;
     current_song := current_song st; cursor := S (cursor st) |}.

(** The test that opens a new song: the line matches, its group 2 is
    longer than 3 characters and [_is_song_title] holds. *)
Definition song_header (lines : list str) (i : nat) (line : str)
  : option (str * str) :=
  match numbered_match line with
  | Some song_match =>
      if (3 <? length (snd song_match)) && _is_song_title lines i
      then Some song_match
      else None
  | None => None
  end.

(** One iteration of the [while i < len(lines)] loop of
    [detect_structure], for [cursor st < length lines]. *)
Definition step (lines : list str) (st : state) : state :=
  let i := cursor st in
  let line := strip db (nth i lines []) in
  if is_empty line then advance st
  else
    match song_header lines i line with
    | Some song_match =>
        {| st_title := st_title st;
           st_songs := close_song (st_songs st) (current_song st);
           current_song := Some (_create_new_song song_match);
           cursor := S i |}
    | None =>
        if _is_main_title line (st_title st) (current_song st) then
          {| st_title := line; st_songs := st_songs st;
             current_song := current_song st; cursor := S i |}
        else
          match (if _is_chorus_line line then current_song st else None) with
          | Some cur =>
              let '(chorus_lines, next_i) := _extract_chorus lines i in
              set_current st (set_chorus cur chorus_lines) next_i
          | None =>
              match numbered_match line, current_song st with
              | Some verse_match, Some cur =>
                  let '(verse_data, next_i) :=
                    _extract_numbered_verse lines i verse_match in
                  set_current st (append_verse cur verse_data) next_i
              | _, Some cur =>
                  if _is_potential_verse line then
                    let '(verse_data, next_i) :=
                      _extract_unnumbered_verse lines i cur in
                    set_current st (append_verse cur verse_data) next_i
                  else advance st
              | _, None => advance st
              end
          end
    end.

(** The main loop; [None] when [fuel] iterations do not reach the end of
    [lines]. *)
Fixpoint main_loop (fuel : nat) (lines : list str) (st : state)
  : option state :=
  if cursor st <? length lines then
    match fuel with
    | 0 => None
    | S fuel' => main_loop fuel' lines (step lines st)
    end
  else Some st.

Definition initial_state : state :=
  {| st_title := []; st_songs := []; current_song := None; cursor := 0 |}.

(** What [detect_structure] builds from the final state of the loop. *)
Definition finish (lines : list str) (st : state) : structure :=
  {| title := st_title st;
     songs := _filter_valid_songs (close_song (st_songs st) (current_song st));
     total_lines :=
       length (filter (fun l => negb (is_empty (strip db l))) lines) |}.

(** [detect_structure(text)].  Every iteration moves the cursor forward,
    so one unit of fuel per line is enough ([detect_structure_total]). *)
Definition detect_structure (text : str) : option structure :=
  let lines := split_on LF text in
  option_map (finish lines) (main_loop (length lines) lines initial_state).

End StructureDetector.

(** ** [invoices.py]

    The single-file version of the program has the same detector, with
    the collection loops written inside its [detect_structure].  Its
    chorus loop and its numbered-verse rule are embedded here, next to
    the ones of [struture_detector.py] that they differ from. *)

Section Invoices.

Variable db : UnicodeDB.

(** The chorus loop of [invoices.py], [while j < len(lines) and
    j < i + 30]: the leading-number test has a [break] on both sides of
    the word count. *)
Fixpoint invoices_chorus_loop (limit : nat) (rest : list str) (j : nat)
    (chorus_lines : list str) : list str * nat :=
  match rest with
  | [] => (chorus_lines, j)
  | l :: rest' =>
      if j <? limit then
        let chorus_line := strip db l in
        if is_empty chorus_line then
          invoices_chorus_loop limit rest' (S j) chorus_lines
        else if leading_number db chorus_line then
          if 3 <? length (split_ws db chorus_line) then (chorus_lines, j)
          else (chorus_lines, j)
        else if _is_chorus_line db chorus_line then (chorus_lines, j)
        else invoices_chorus_loop limit rest' (S j)
               (chorus_lines ++ [chorus_line])
      else (chorus_lines, j)
  end.

(** The chorus rule of [invoices.py]: the lines given to
    [current_song['chorus']] and the value given to [i]. *)
Definition invoices_chorus (lines : list str) (i : nat) : list str * nat :=
  invoices_chorus_loop (i + 30) (skipn (S i) lines) (S i) [].

(** The numbered-verse rule of [invoices.py]: the verse appended, if any,
    and the value given to [i].  Its loop is the one of
    [_extract_numbered_verse]; [i = j] follows it whether the verse is
    kept or not.  A line whose text has more than 15 words takes none of
    the later branches (it starts with a digit) and ends at [i += 1]. *)
Definition invoices_numbered_verse (lines : list str) (i : nat)
    (verse_match : str * str) : option verse * nat :=
  let verse_num := fst verse_match in
  let verse_text := snd verse_match in
  if length (split_ws db verse_text) <=? 15 then
    let '(collected, j) :=
      numbered_loop db (skipn (S i) lines) (S i) [verse_text] in
    if 10 <? length (strip db (join [SP] collected)) then
      (Some {| verse_number := verse_num; verse_lines := collected |}, j)
    else (None, j)
  else (None, S i).

End Invoices.

(** ** The Basic Latin block of the character database

    The tables for the code points below 128; above, every code point is
    taken as an uncased symbol that is neither a space nor a digit. *)

Definition between (lo hi c : char) : bool := N.leb lo c && N.leb c hi.

Definition basic_latin : UnicodeDB := {|
  isspace := fun c => (between 9 13 c || between 28 32 c)%N;
  isdecimal := fun c => (between 48 57 c)%N;
  isalnum := fun c => (between 48 57 c || between 65 90 c || between 97 122 c)%N;
  islower := fun c => (between 97 122 c)%N;
  istitle := fun _ => false;
  isupper := fun c => (between 65 90 c)%N;
  toupper := fun c => (if between 97 122 c then [c - 32] else [c])%N;
  iscased := fun c => (between 65 90 c || between 97 122 c)%N;
  tolower := fun c => (if between 65 90 c then c + 32 else c)%N;
  fixes := fun c =>
    (if N.eqb c 105 then [305] else if N.eqb c 115 then [383] else [])%N
|}.


(** ** Predicates used in the statements *)

(** A string with no leading and no trailing whitespace character. *)
Definition no_outer_space (db : UnicodeDB) (s : str) : bool :=
  match s with
  | [] => true
  | c :: _ => negb (isspace db c) && negb (isspace db (last s c))
  end.

(** The longest prefix of [s] whose characters satisfy [p]. *)
Fixpoint take_while (p : char -> bool) (s : str) : str :=
  match s with
  | [] => []
  | c :: s' => if p c then c :: take_while p s' else []
  end.

Definition line_feed_free (s : str) : Prop := ~ In LF s.

(** The stop tests of the chorus loop on a raw line: a non-blank line
    that is a leading-number line of more than 3 words, or a keyword
    line. *)
Definition chorus_stop (db : UnicodeDB) (l : str) : bool :=
  let chorus_line := strip db l in
  negb (is_empty chorus_line)
  && ((leading_number db chorus_line
       && (3 <? length (split_ws db chorus_line)))
      || _is_chorus_line db chorus_line).

Definition nonblank (db : UnicodeDB) (l : str) : bool :=
  negb (is_empty (strip db l)).

(** The non-blank lines of [ls], trimmed. *)
Definition trimmed_lines (db : UnicodeDB) (ls : list str) : list str :=
  filter (fun l => negb (is_empty l)) (map (strip db) ls).

(** A stored verse line: non-empty and trimmed. *)
Definition stored_line (db : UnicodeDB) (l : str) : Prop :=
  l <> [] /\ no_outer_space db l = true.

Definition verse_ok (db : UnicodeDB) (v : verse) : Prop :=
  1 <= length (verse_lines v) <= MAX_VERSE_LINES
  /\ Forall (stored_line db) (verse_lines v).

Definition song_has_content (s : song) : Prop :=
  verses s <> [] \/ chorus s <> [].

(** The invariant of the main loop: every verse stored so far is well
    formed. *)
Definition song_ok (db : UnicodeDB) (s : song) : Prop :=
  Forall (verse_ok db) (verses s).

Definition state_ok (db : UnicodeDB) (st : state) : Prop :=
  Forall (song_ok db) (st_songs st)
  /\ forall cur, current_song st = Some cur -> song_ok db cur.

(** The text of the detector-boundary example. *)
Definition boundary_input : str :=
  lit "1 Amazing Grace" ++ [LF] ++ lit "How sweet the sound" ++ [LF]
  ++ lit "2 Second Song" ++ [LF] ++ lit "More words here" ++ [LF].

(** [lines[a:b]]. *)
Definition slice (lines : list str) (a b : nat) : list str :=
  firstn (b - a) (skipn a lines).

(** A line that none of the collection loops stops at or skips. *)
Definition plain_line (db : UnicodeDB) (l : str) : Prop :=
  nonblank db l = true
  /\ leading_number db (strip db l) = false
  /\ _is_chorus_line db (strip db l) = false.

(** A numbered verse start followed by 50 plain lines.  The captured
    text has 3 characters, so that [detect_structure] does not take the
    line for a song header. *)
Definition fifty_lines : list str :=
  lit "1 Joy" :: repeat (lit "to the world") 50.

(** The same lines under a song header, as one text. *)
Definition fifty_lines_text : str :=
  join [LF] (lit "9 Carol of joy" :: fifty_lines).

(** A chorus marker followed by 40 plain lines. *)
Definition forty_lines : list str :=
  lit "Chorus" :: repeat (lit "la la") 40.

(** A song whose chorus is followed by the header of the next song. *)
Definition swallowed_header_text : str :=
  join [LF]
    [ lit "1 First Song"; lit "CHORUS"; lit "Praise the Lord";
      lit "2 Second Song"; lit "Sing a new song to him" ].

(** A numbered line whose verse is too short to be kept. *)
Definition reread_line_text : str :=
  join [LF] [ lit "1 First Song"; lit "2 ab"; lit "xy zw k" ].

(** The symbol class in the words of the specification: colon, hyphen,
    em-dash, pipe, comma, apostrophe and the letters s, m, d, f, t, l, r,
    i in either case. *)
Definition spec_symbol_class (c : char) : bool :=
  existsb (N.eqb c)
    (lit ":-" ++ [EM_DASH] ++ lit "|,'" ++ lit "smdftlri" ++ lit "SMDFTLRI").

(** The ASCII members of the class of the source: colon, hyphen, dot,
    pipe, comma, apostrophe and the lower-case letters. *)
Definition symbol_class (c : char) : bool :=
  existsb (N.eqb c) (lit ":-" ++ lit ".|,'smdftlri").

(** The em-dash and the three characters the source has in its place. *)
Definition dash_characters : list char := [EM_DASH; 226%N; 8364%N; 8221%N].

(** A line that the first cleaning leaves denser in notation. *)
Definition unstable_text : str := lit "SSS:x smd".

Definition stable_text : str :=
  lit "  How sweet the sound" ++ [LF] ++ [LF] ++ lit "That saved a wretch ".

(** ** [text_extrator.py]

    The PDF and OCR libraries are outside the repository: a document is
    given by what [page.extract_text()] returns for each of its pages
    (a text, or [None] for a page without text), up to the page where the
    library raises; the OCR of a document is given by the text of
    [pytesseract.image_to_string] for each page, or [None] where a
    library call raises. *)

Inductive page :=
| Page (text : option str)
| Page_raises.

Section TextExtractor.

Variable db : UnicodeDB.

(** The loop of [extract_text_basic] inside its [try]: an exception
    leaves the loop with the texts appended so far. *)
Fixpoint basic_loop (pages : list page) (all_text : list str) : list str :=
  match pages with
  | [] => all_text
  | Page_raises :: _ => all_text
  | Page None :: rest => basic_loop rest all_text
  | Page (Some text) :: rest =>
      if negb (is_empty text) && negb (is_empty (strip db text)) then
        let cleaned_text := clean_musical_notation db text in
        if negb (is_empty (strip db cleaned_text))
        then basic_loop rest (all_text ++ [cleaned_text])
        else basic_loop rest all_text
      else basic_loop rest all_text
  end.

Definition extract_text_basic (pdf : list page) : str :=
  join [LF] (basic_loop pdf []).

(** The loop of [_extract_with_ocr]; an exception propagates ([None]). *)
Fixpoint ocr_loop (pages : list (option str)) (all_text : list str)
  : option (list str) :=
  match pages with
  | [] => Some all_text
  | None :: _ => None
  | Some text :: rest =>
      if negb (is_empty (strip db text)) then
        let cleaned_text := clean_musical_notation db text in
        if negb (is_empty (strip db cleaned_text))
        then ocr_loop rest (all_text ++ [cleaned_text])
        else ocr_loop rest all_text
      else ocr_loop rest all_text
  end.

Definition _extract_with_ocr (ocr : list (option str)) : option (list str) :=
  ocr_loop ocr [].

(** [extract_text_advanced]: [available] is
    [self.advanced_ocr_available]. *)
Definition extract_text_advanced (available : bool) (pdf : list page)
    (ocr : list (option str)) : str :=
  if negb available then extract_text_basic pdf
  else
    let basic_text := extract_text_basic pdf in
    if negb (is_empty basic_text) && (100 <? length (strip db basic_text))
    then basic_text
    else
      let all_text :=
        match _extract_with_ocr ocr with
        | Some texts => texts
        | None => []
        end in
      join [LF] all_text.

End TextExtractor.

(** The texts of the pages read before the library raises, a page
    without text counting as an empty text. *)
Fixpoint page_texts (pdf : list page) : list str :=
  match pdf with
  | [] => []
  | Page_raises :: _ => []
  | Page None :: rest => [] :: page_texts rest
  | Page (Some text) :: rest => text :: page_texts rest
  end.

Fixpoint ocr_texts (ocr : list (option str)) : list str :=
  match ocr with
  | [] => []
  | None :: rest => ocr_texts rest
  | Some text :: rest => text :: ocr_texts rest
  end.

(** ** [file_exporters.py]

    The exporters receive the dictionary built by [detect_structure],
    whose songs and verses have all their keys, so the defaults of the
    [get] calls are never used. *)

(** [a == b] on strings. *)
Fixpoint str_eqb (a b : str) : bool :=
  match a, b with
  | [], [] => true
  | x :: a', y :: b' => N.eqb x y && str_eqb a' b'
  | _, _ => false
  end.

(** A Python dictionary with string keys, as the list of its items in
    insertion order; [d[key] = value] keeps the place of a key that is
    already there. *)
Fixpoint dict_set {V : Type} (d : list (str * V)) (key : str) (value : V)
  : list (str * V) :=
  match d with
  | [] => [(key, value)]
  | (k, v) :: d' =>
      if str_eqb k key then (k, value) :: d'
      else (k, v) :: dict_set d' key value
  end.

Fixpoint dict_get {V : Type} (d : list (str * V)) (key : str) : option V :=
  match d with
  | [] => None
  | (k, v) :: d' => if str_eqb k key then Some v else dict_get d' key
  end.

Definition keys {V : Type} (d : list (str * V)) : list str := map fst d.

Record json_verse := {
  jv_number : str;
  jv_lines : list str
}.

Record json_song := {
  js_number : str;
  js_title : str;
  js_verses : list (str * json_verse);
  js_chorus : list str
}.

(** [f"estrofe_{verse.get('number', i+1)}"] *)
Definition verse_key (v : verse) : str := lit "estrofe_" ++ verse_number v.

Definition verse_entry (v : verse) : json_verse :=
  {| jv_number := verse_number v; jv_lines := verse_lines v |}.

(** The loop of [_format_song_for_json] over the verses. *)
Definition verses_table (d : list (str * json_verse)) (vs : list verse)
  : list (str * json_verse) :=
  fold_left (fun table v => dict_set table (verse_key v) (verse_entry v)) vs d.

Definition _format_song_for_json (s : song) : json_song :=
  {| js_number := song_number s;
     js_title := song_title s;
     js_verses := verses_table [] (verses s);
     js_chorus := chorus s |}.

(** The worksheet of [create_excel_file] as the list of the calls
    [ws.cell(row, column, value)] that returned, in order.  Fonts and
    column widths are not modelled, nor what the library stores for a
    value that it accepts (openpyxl cuts a string at 32767 characters). *)
Definition cell := (nat * nat * str)%type.

Definition coordinates (c : cell) : nat * nat := fst c.

Definition cell_value (c : cell) : str := snd c.

Section Excel.

(** The test of the library on a value given to a cell: openpyxl raises
    [IllegalCharacterError] for a string that holds a control character.
    Nothing in [create_excel_file] catches the exception, so a refused
    value ends the function before [wb.save]. *)
Variable refused : str -> bool.

(** [x <- e ;; k]: go on with the result of [e], or leave with the
    exception that [e] raised. *)
Notation "x <- e ;; k" :=
  (match e with Some x => k | None => None end)
  (at level 61, e at next level, right associativity).

(** [ws.cell(row=row, column=column, value=value)] *)
Definition write (ws : list cell) (row column : nat) (value : str)
  : option (list cell) :=
  if refused value then None else Some (ws ++ [(row, column, value)]).

(** The loop over the verses in [_add_song_to_excel]. *)
Fixpoint add_verse_rows (number : str) (vs : list verse) (ws : list cell)
    (row : nat) : option (list cell * nat) :=
  match vs with
  | [] => Some (ws, row)
  | v :: vs' =>
      ws <- write ws row 1 number;;
      ws <- write ws row 3 (lit "VERSE");;
      ws <- write ws row 4 (verse_number v);;
      ws <- write ws row 5 (join (lit " / ") (verse_lines v));;
      add_verse_rows number vs' ws (S row)
  end.

Definition _add_song_to_excel (ws : list cell) (s : song) (row : nat)
  : option (list cell * nat) :=
  ws <- write ws row 1 (song_number s);;
  ws <- write ws row 2 (song_title s);;
  ws <- write ws row 3 (lit "TITLE");;
  acc <- add_verse_rows (song_number s) (verses s) ws (S row);;
  let '(ws, row) := acc in
  if negb (is_empty_list (chorus s)) then
    ws <- write ws row 1 (song_number s);;
    ws <- write ws row 3 (lit "CHORUS");;
    ws <- write ws row 5 (join (lit " / ") (chorus s));;
    Some (ws, S row)
  else Some (ws, row).

(** The loop over the songs in [create_excel_file]. *)
Fixpoint add_song_rows (ss : list song) (ws : list cell) (row : nat)
  : option (list cell * nat) :=
  match ss with
  | [] => Some (ws, row)
  | s :: ss' =>
      acc <- _add_song_to_excel ws s row;;
      add_song_rows ss' (fst acc) (snd acc)
  end.

(** [create_excel_file] up to [wb.save]: the writes of the worksheet that
    is saved and the next free row, or [None] when a write raised and
    nothing is saved. *)
Definition create_excel_file (book_data : structure)
  : option (list cell * nat) :=
  ws <- write [] 1 1 (lit "Number");;
  ws <- write ws 1 2 (lit "Title");;
  ws <- write ws 1 3 (lit "Type");;
  ws <- write ws 1 4 (lit "Verse");;
  ws <- write ws 1 5 (lit "Content");;
  let row := 2 in
  acc <-
    (if negb (is_empty (title book_data)) then
       ws <- write ws row 3 (lit "MAIN TITLE");;
       ws <- write ws row 5 (title book_data);;
       Some (ws, S row)
     else Some (ws, row));;
  add_song_rows (songs book_data) (fst acc) (snd acc).

End Excel.

(** The test of openpyxl: a control character ([\000-\010],
    [\013-\014] or [\016-\037]) among the first 32767 characters of the
    string. *)
Definition illegal_characters (value : str) : bool :=
  existsb (fun c => (between 0 8 c || between 11 12 c || between 14 31 c)%N)
    (firstn (N.to_nat 32767) value).

(** The values that [create_excel_file] has to write, in order. *)
Definition verse_values (number : str) (v : verse) : list str :=
  [ number; lit "VERSE"; verse_number v;
    join (lit " / ") (verse_lines v) ].

Definition song_values (s : song) : list str :=
  [ song_number s; song_title s; lit "TITLE" ]
  ++ flat_map (verse_values (song_number s)) (verses s)
  ++ (if is_empty_list (chorus s) then []
      else [ song_number s; lit "CHORUS"; join (lit " / ") (chorus s) ]).

Definition excel_values (book_data : structure) : list str :=
  [ lit "Number"; lit "Title"; lit "Type"; lit "Verse"; lit "Content" ]
  ++ (if is_empty (title book_data) then []
      else [ lit "MAIN TITLE"; title book_data ])
  ++ flat_map song_values (songs book_data).

(** The number of rows a song takes in the worksheet. *)
Definition song_rows (s : song) : nat :=
  1 + length (verses s) + (if is_empty_list (chorus s) then 0 else 1).

(** A worksheet filled from row 1 to the row before [row]: no cell
    written twice, every write inside these rows and inside columns 1 to
    5, and column 3 written in each of these rows. *)
Definition sheet_ok (acc : list cell * nat) : Prop :=
  let '(ws, row) := acc in
  1 <= row
  /\ NoDup (map coordinates ws)
  /\ (forall r c v, In (r, c, v) ws -> 1 <= r < row /\ 1 <= c <= 5)
  /\ (forall r, 1 <= r < row -> In (r, 3) (map coordinates ws)).

(** What a run of writes that starts on the worksheet [ws0] at the row
    [row0] comes to: it raises exactly when one of [values] is refused;
    otherwise it has written [values] after the cells of [ws0], the
    worksheet is well formed and [rows] more rows are filled. *)
Definition written (refused : str -> bool) (ws0 : list cell) (row0 : nat)
    (values : list str) (rows : nat) (res : option (list cell * nat))
  : Prop :=
  match res with
  | Some (ws, row) =>
      existsb refused values = false
      /\ map cell_value ws = map cell_value ws0 ++ values
      /\ sheet_ok (ws, row)
      /\ row = row0 + rows
  | None => existsb refused values = true
  end.

(** A text whose verse line holds the control character U+0001. *)
Definition control_character_text : str :=
  join [LF]
    [ lit "1 First Song"; lit "Praise" ++ [1%N] ++ lit "the Lord always" ].

(** ** [report_generator.py] and the results of [book_extrator.py] *)

Record success_details := {
  output_folder : str;
  excel_file : str;
  json_file : str;
  word_file : str;
  songs_found : nat
}.

(** A result dictionary: the two keys every result has, and the keys of
    a successful one. *)
Record result := {
  original_file : str;
  status : str;
  details : option success_details
}.

(** What [_process_single_file] reports for a file. *)
Inductive outcome :=
| Succeeded (file folder excel json word : str) (songs : nat)
| Failed (file error_message : str).

(** [_add_successful_result] and [_add_failed_result], each followed by
    [add_result]. *)
Definition _add_successful_result (word_available : bool)
    (extracted_books : list result)
    (file folder excel json word : str) (songs : nat) : list result :=
  extracted_books
  ++ [ {| original_file := file;
          status := lit "SUCCESS";
          details :=
            Some {| output_folder := folder; excel_file := excel;
                    json_file := json;
                    word_file := if word_available then word else lit "N/A";
                    songs_found := songs |} |} ].

Definition _add_failed_result (extracted_books : list result)
    (file error_message : str) : list result :=
  extracted_books
  ++ [ {| original_file := file;
          status := lit "ERROR: " ++ error_message;
          details := None |} ].

Definition record_outcome (word_available : bool)
    (extracted_books : list result) (o : outcome) : list result :=
  match o with
  | Succeeded file folder excel json word n =>
      _add_successful_result word_available extracted_books
        file folder excel json word n
  | Failed file error_message =>
      _add_failed_result extracted_books file error_message
  end.

(** [b.get('status') == 'SUCCESS'] and ['ERROR' in b.get('status', '')]. *)
Definition is_successful (b : result) : bool :=
  str_eqb (status b) (lit "SUCCESS").

Definition is_failed (b : result) : bool :=
  contains (lit "ERROR") (status b).

(** The ['summary'] of [_save_detailed_report]. *)
Record summary := {
  total : nat;
  successful : nat;
  failed : nat
}.

Definition report_summary (extracted_books : list result) : summary :=
  {| total := length extracted_books;
     successful := length (filter is_successful extracted_books);
     failed := length (filter is_failed extracted_books) |}.

(** [sum(b.get('songs_found', 0) for b in successful)] of
    [_print_successful_results]. *)
Definition total_songs (extracted_books : list result) : nat :=
  list_sum
    (map (fun b => match details b with
                   | Some d => songs_found d
                   | None => 0
                   end)
       (filter is_successful extracted_books)).

Definition is_success (o : outcome) : bool :=
  match o with Succeeded _ _ _ _ _ _ => true | Failed _ _ => false end.

Definition outcome_songs (o : outcome) : nat :=
  match o with Succeeded _ _ _ _ _ n => n | Failed _ _ => 0 end.

(** ** Predicates of the further properties *)

(** A property of songs that holds of the closed songs and of the open
    one. *)
Definition state_all (Q : song -> Prop) (st : state) : Prop :=
  Forall Q (st_songs st)
  /\ forall cur, current_song st = Some cur -> Q cur.

(** A property of lines that holds of every verse line and of every
    chorus line of a song. *)
Definition song_lines (P : str -> Prop) (s : song) : Prop :=
  Forall (fun v => Forall P (verse_lines v)) (verses s)
  /\ Forall P (chorus s).

(** [x] is a trimmed line of [lines], or the text captured by the
    numbered pattern on one. *)
Definition from_text (db : UnicodeDB) (lines : list str) (x : str) : Prop :=
  exists l,
    In l lines
    /\ (x = strip db l
        \/ exists d, numbered_match db (strip db l) = Some (d, x)).

(** A line that matches [^(\d+)\s+(.+)] once trimmed. *)
Definition numbered_line (db : UnicodeDB) (l : str) : bool :=
  is_some (numbered_match db (strip db l)).

(** The test of [_is_main_title] on the line alone. *)
Definition title_line (db : UnicodeDB) (line : str) : bool :=
  str_isupper db line && (10 <? length line).

(** A well-formed song header: a number of decimal digits and a trimmed
    title of more than 3 characters. *)
Definition header_ok (db : UnicodeDB) (s : song) : Prop :=
  song_number s <> []
  /\ forallb (isdecimal db) (song_number s) = true
  /\ 3 < length (song_title s)
  /\ no_outer_space db (song_title s) = true.

(** A text without numbered line, with a title line. *)
Definition untitled_text : str :=
  lit "hymns" ++ [LF] ++ lit "  SONGS OF PRAISE " ++ [LF]
  ++ lit "Sing to the Lord" ++ [LF] ++ lit "ANOTHER CAPITAL LINE".

(** Three numbered lines in a row. *)
Definition verse_block : list str :=
  [ lit "1 Praise the Lord"; lit "2 Sing his name"; lit "3 Now and ever" ].

(** The lines kept from a text by [clean_musical_notation]. *)
Definition kept (db : UnicodeDB) (t : str) : list str :=
  cleaned_lines db (split_on LF t).

(** The sum of the lengths of the pieces, each counted with one
    separator. *)
Definition total_length (ls : list str) : nat :=
  list_sum (map (fun l => S (length l)) ls).

(** A text made of notation only. *)
Definition notation_text : str :=
  lit "s:m-d, f|t" ++ [LF] ++ lit "  :-:-|,,''  " ++ [LF] ++ [LF]
  ++ lit "d.r.m i l".

(** A short text page and an OCR run that fails on its second page. *)
Definition short_pdf : list page := [ Page (Some (lit "Amazing grace")) ].

Definition failing_ocr : list (option str) :=
  [ Some (lit "Amazing grace how sweet the sound"); None ].

(** A song whose second and third verses are both numbered "2". *)
Definition twice_two_song : song :=
  {| song_number := lit "4"; song_title := lit "Rock of Ages";
     verses :=
       [ {| verse_number := lit "1"; verse_lines := [lit "first verse"] |};
         {| verse_number := lit "2"; verse_lines := [lit "second verse"] |};
         {| verse_number := lit "2"; verse_lines := [lit "third verse"] |} ];
     chorus := [] |}.

(** A text in which an unnumbered verse is followed by a numbered verse
    with the number the first one was given. *)
Definition same_number_text : str :=
  join [LF]
    [ lit "9 Carol of joy"; lit "Joy to the world"; lit "the Lord is come";
      lit "let earth receive"; lit "her King today"; lit "1 Joy";
      lit "let every heart"; lit "prepare him room" ].

(** * Properties *)

(** ** Strings *)

Section StringFacts.

Variable db : UnicodeDB.

Lemma lstrip_suffix (s : str) :
  exists p, s = p ++ lstrip db s /\ forallb (isspace db) p = true.
Proof.
  induction s as [|c s IH]; simpl.
  - exists []. auto.
  - destruct (isspace db c) eqn:E.
    + destruct IH as [p [Hp Hs]]. exists (c :: p). simpl.
      rewrite E, <- Hp. auto.
    + exists []. auto.
Qed.

Lemma lstrip_head {s : str} {c : char} {t : str} :
  lstrip db s = c :: t -> isspace db c = false.
Proof.
  induction s as [|a s IH]; simpl; [discriminate|].
  destruct (isspace db a) eqn:E; auto.
  intros H. inversion H. subst. exact E.
Qed.

Lemma lstrip_fixed (s : str) :
  match s with [] => True | c :: _ => isspace db c = false end ->
  lstrip db s = s.
Proof.
  destruct s as [|c s]; simpl; auto. intros ->. reflexivity.
Qed.

Lemma rstrip_prefix (s : str) :
  exists q, s = rstrip db s ++ q /\ forallb (isspace db) q = true.
Proof.
  unfold rstrip. destruct (lstrip_suffix (rev s)) as [p [Hp Hs]].
  exists (rev p). split.
  - rewrite <- rev_app_distr, <- Hp, rev_involutive. reflexivity.
  - rewrite forallb_forall in *. intros x Hx. apply Hs.
    apply in_rev. exact Hx.
Qed.

Lemma last_rev_head {A : Type} (l : list A) {a : A} (d : A) {t : list A} :
  rev l = a :: t -> last l d = a.
Proof.
  intros H. assert (E : l = rev t ++ [a]).
  { rewrite <- (rev_involutive l), H. reflexivity. }
  rewrite E. apply last_last.
Qed.

Lemma strip_no_outer_space (s : str) : no_outer_space db (strip db s) = true.
Proof.
  unfold no_outer_space, strip.
  destruct (rstrip db (lstrip db s)) as [|c t] eqn:E; [reflexivity|].
  destruct (rstrip_prefix (lstrip db s)) as [q [Hq _]].
  rewrite E in Hq. simpl in Hq.
  unfold rstrip in E.
  destruct (lstrip db (rev (lstrip db s))) as [|a u] eqn:F.
  - simpl in E. discriminate.
  - assert (L : last (c :: t) c = a).
    { apply (@last_rev_head _ (c :: t) a c u). rewrite <- E, rev_involutive.
      reflexivity. }
    rewrite L, (lstrip_head Hq), (lstrip_head F). reflexivity.
Qed.

Lemma strip_fixed (s : str) : no_outer_space db s = true -> strip db s = s.
Proof.
  destruct s as [|c t]; [reflexivity|].
  unfold no_outer_space. rewrite andb_true_iff, !negb_true_iff.
  intros [Hc Hl]. unfold strip.
  rewrite lstrip_fixed by exact Hc.
  unfold rstrip. rewrite lstrip_fixed; [apply rev_involutive|].
  destruct (rev (c :: t)) as [|a u] eqn:E; [exact I|].
  rewrite <- (last_rev_head (c :: t) c E). exact Hl.
Qed.

Lemma lstrip_In (s : str) (x : char) : In x (lstrip db s) -> In x s.
Proof.
  destruct (lstrip_suffix s) as [p [Hp _]]. intros H.
  rewrite Hp. apply in_or_app. right. exact H.
Qed.

Lemma strip_In (s : str) (x : char) : In x (strip db s) -> In x s.
Proof.
  unfold strip. intros H. apply lstrip_In.
  destruct (rstrip_prefix (lstrip db s)) as [q [Hq _]].
  rewrite Hq. apply in_or_app. left. exact H.
Qed.

Lemma strip_line_feed_free (s : str) :
  line_feed_free s -> line_feed_free (strip db s).
Proof. unfold line_feed_free. intros H K. apply H, (strip_In _ _ K). Qed.

Lemma split_on_nonempty (sep : char) (s : str) : split_on sep s <> [].
Proof.
  destruct s as [|c s]; simpl; [discriminate|].
  destruct (N.eqb c sep); [discriminate|].
  destruct (split_on sep s); discriminate.
Qed.

Lemma split_on_free (sep : char) (s : str) :
  Forall (fun piece => ~ In sep piece) (split_on sep s).
Proof.
  induction s as [|c s IH]; simpl.
  - constructor; auto.
  - destruct (N.eqb c sep) eqn:E.
    + constructor; auto.
    + assert (Hc : forall p, ~ In sep p -> ~ In sep (c :: p)).
      { intros p Hp [K|K]; [|contradiction].
        subst. rewrite N.eqb_refl in E. discriminate. }
      destruct (split_on sep s) as [|p ps]; inversion IH; subst;
        constructor; auto.
Qed.

Lemma split_on_line_feed_free (text : str) :
  Forall line_feed_free (split_on LF text).
Proof. apply split_on_free. Qed.

End StringFacts.

(** ** The matcher *)

Section RegexFacts.

Variable db : UnicodeDB.

(** A successful greedy repetition splits the subject into the run it
    kept and the rest handed to the continuation; every longer run had
    been tried before and had failed. *)
Lemma rep_inv (p : char -> bool) (k : continuation) :
  forall (s : str) (min : nat) (prev : option char) (r : list str),
    rep p k min prev s = Some r ->
    exists g rest gs prev',
      r = g :: gs /\ s = g ++ rest /\ forallb p g = true /\
      min <= length g /\ k prev' rest = Some gs /\
      (forall c rest', rest = c :: rest' -> p c = true ->
         match rep p k (pred (min - length g)) (Some c) rest' with
         | Some (_ :: _) => False
         | _ => True
         end).
Proof.
  assert (Stop : forall s min prev r,
    match min with
    | 0 => option_map (cons []) (k prev s)
    | S _ => None
    end = Some r ->
    (forall c rest', s = c :: rest' -> p c = true ->
       match rep p k 0 (Some c) rest' with
       | Some (_ :: _) => False
       | _ => True
       end) ->
    exists g rest gs prev',
      r = g :: gs /\ s = g ++ rest /\ forallb p g = true /\
      min <= length g /\ k prev' rest = Some gs /\
      (forall c rest', rest = c :: rest' -> p c = true ->
         match rep p k (pred (min - length g)) (Some c) rest' with
         | Some (_ :: _) => False
         | _ => True
         end)).
  { intros s min prev r H Hp. destruct min as [|m]; [|discriminate].
    destruct (k prev s) as [gs|] eqn:K; [|discriminate].
    inversion H. subst. exists [], s, gs, prev. simpl. auto 7. }
  induction s as [|c s IH]; intros min prev r H.
  - simpl in H. apply (Stop _ _ _ _ H). intros; discriminate.
  - simpl in H. destruct (p c) eqn:Pc.
    + destruct (rep p k (pred min) (Some c) s) as [[|g gs]|] eqn:E.
      * apply (Stop _ _ _ _ H). intros c0 rest' Hc _.
        inversion Hc; subst. destruct min; [|discriminate].
        simpl in E. rewrite E. exact I.
      * inversion H; subst.
        destruct (IH _ _ _ E) as [g0 [rest [gs0 [prev' [R [S1 [F [L [K P]]]]]]]]].
        inversion R; subst.
        exists (c :: g0), rest, gs0, prev'. simpl. rewrite Pc.
        repeat split; auto; try lia.
        intros c0 rest' Hr Hc. specialize (P _ _ Hr Hc).
        replace (pred (min - S (length g0)))
          with (pred (pred min - length g0)) by lia. exact P.
      * apply (Stop _ _ _ _ H). intros c0 rest' Hc _.
        inversion Hc; subst. destruct min; [|discriminate].
        simpl in E. rewrite E. exact I.
    + apply (Stop _ _ _ _ H). intros c0 rest' Hc Hp.
      inversion Hc; subst. congruence.
Qed.

(** When a repetition without a minimum yields nothing, its continuation
    fails at the current position. *)
Lemma rep_zero_fail (p : char -> bool) (k : continuation)
    (prev : option char) (s : str) :
  match rep p k 0 prev s with
  | Some (_ :: _) => False
  | _ => True
  end ->
  k prev s = None.
Proof.
  destruct (k prev s) as [gs|] eqn:K; [|reflexivity].
  destruct s as [|c s]; simpl; rewrite K; simpl; [contradiction|].
  destruct (p c); [|contradiction].
  destruct (rep p k 0 (Some c) s) as [[|g' gs']|]; contradiction.
Qed.

(** In front of a continuation that always succeeds, a repetition keeps
    the longest run. *)
Lemma rep_always (p : char -> bool) :
  forall (s : str) (min : nat) (prev : option char),
    rep p (fun _ _ => Some []) min prev s
    = if min <=? length (take_while p s)
      then Some [take_while p s] else None.
Proof.
  induction s as [|c s IH]; intros min prev; simpl.
  - destruct min; reflexivity.
  - destruct (p c) eqn:Pc.
    + rewrite IH. simpl length.
      destruct (pred min <=? length (take_while p s)) eqn:E.
      * apply Nat.leb_le in E.
        replace (min <=? S (length (take_while p s))) with true; auto.
        symmetry. apply Nat.leb_le. lia.
      * apply Nat.leb_gt in E. destruct min as [|m]; [simpl in E; lia|].
        simpl in E.
        replace (S m <=? S (length (take_while p s))) with false; auto.
        symmetry. apply Nat.leb_gt. lia.
    + destruct min; reflexivity.
Qed.

Lemma take_while_all (p : char -> bool) (s : str) :
  forallb p s = true -> take_while p s = s.
Proof.
  induction s as [|c s IH]; simpl; auto.
  destruct (p c); simpl; [|discriminate]. intros H. f_equal. auto.
Qed.

Lemma dot_all (ic : bool) (s : str) :
  line_feed_free s -> forallb (cls_match db ic Dot) s = true.
Proof.
  unfold line_feed_free. intros H. apply forallb_forall. intros x Hx.
  simpl. apply negb_true_iff, N.eqb_neq. intros ->. exact (H Hx).
Qed.

Lemma last_app_nonempty (A : Type) (p l : list A) (a b : A) :
  l <> [] -> last (p ++ l) a = last l b.
Proof.
  intros H. destruct (exists_last H) as [l' [x ->]].
  rewrite app_assoc, !last_last. reflexivity.
Qed.

(** Groups 1 and 2 of [^(\d+)\s+(.+)] on a trimmed line without line
    feed: group 2 is the non-empty, trimmed end of the line. *)
Lemma numbered_match_inv (line d t : str) :
  numbered_match db line = Some (d, t) ->
  line_feed_free line ->
  no_outer_space db line = true ->
  t <> [] /\ no_outer_space db t = true /\ exists w, line = d ++ w ++ t.
Proof.
  unfold numbered_match, re_match, NUMBERED_LINE, DIGITS. simpl run.
  intros H Hlf Hno.
  destruct (rep (cls_match db false (Set_ [Cat_digit]))
    (fun prev s => rep (cls_match db false (Set_ [Cat_space]))
       (fun prev0 s0 => rep (cls_match db false Dot)
          (fun _ _ => Some []) 1 prev0 s0) 1 prev s) 1 None line)
    as [r1|] eqn:E1; [|discriminate].
  destruct (rep_inv _ _ _ _ _ _ E1)
    as [g [rest1 [gs [prev1 [R1 [S1 [_ [_ [K1 _]]]]]]]]].
  destruct (rep_inv _ _ _ _ _ _ K1)
    as [w [rest2 [gs2 [prev2 [R2 [S2 [_ [Lw [K2 P2]]]]]]]]].
  rewrite rep_always in K2.
  assert (Hrest2 : line_feed_free rest2).
  { intros K. apply Hlf. subst line rest1. apply in_or_app. right.
    apply in_or_app. right. exact K. }
  rewrite (take_while_all _ _ (dot_all false _ Hrest2)) in K2.
  destruct (1 <=? length rest2) eqn:L2; [|discriminate].
  apply Nat.leb_le in L2. inversion K2. subst gs2 gs r1.
  simpl in H. inversion H. clear H. subst g rest2.
  assert (Ht : t <> []) by (intros ->; simpl in L2; lia).
  split; [exact Ht|]. split; [|exists w; subst; reflexivity].
  destruct t as [|c t'] eqn:Et; [congruence|].
  assert (Hline : line = (d ++ w) ++ c :: t')
    by (subst; rewrite <- app_assoc; reflexivity).
  assert (Hlast : isspace db (last (c :: t') c) = false).
  { destruct line as [|c0 l0] eqn:El.
    - destruct (d ++ w); discriminate.
    - unfold no_outer_space in Hno.
      apply andb_true_iff in Hno. destruct Hno as [_ Hl].
      apply negb_true_iff in Hl.
      rewrite Hline in Hl.
      rewrite (@last_app_nonempty _ (d ++ w) (c :: t') c0 c) in Hl by discriminate.
      exact Hl. }
  unfold no_outer_space. rewrite Hlast.
  destruct (isspace db c) eqn:Sc; [|reflexivity].
  exfalso.
  assert (Pc : cls_match db false (Set_ [Cat_space]) c = true)
    by (simpl; rewrite Sc; reflexivity).
  specialize (P2 c t' eq_refl Pc).
  replace (pred (1 - length w)) with 0 in P2 by lia.
  apply rep_zero_fail in P2. rewrite rep_always in P2.
  assert (Ht' : line_feed_free t').
  { intros K. apply Hrest2. right. exact K. }
  rewrite (take_while_all _ _ (dot_all false _ Ht')) in P2.
  destruct t' as [|c1 t'']; [|simpl in P2; discriminate].
  simpl in Hlast. congruence.
Qed.

(** [re.findall] of a single class returns one match per character of
    the class. *)
Lemma findall_class (ic : bool) (cl : cls) :
  forall (s : str) (prev : option char),
    findall_from db ic [One cl] 0 prev s
    = map (fun c => [c]) (filter (cls_match db ic cl) s).
Proof.
  induction s as [|c s IH]; intros prev; [reflexivity|].
  simpl. destruct (cls_match db ic cl c); simpl; rewrite IH; reflexivity.
Qed.

End RegexFacts.

(** ** The collection loops *)

Section LoopFacts.

Variable db : UnicodeDB.

Lemma chorus_loop_run (limit : nat) :
  forall (n : nat) (rest : list str) (j : nat) (acc : list str),
    n <= length rest -> j + n <= limit ->
    Forall (fun l => chorus_stop db l = false) (firstn n rest) ->
    chorus_loop db limit rest j acc
    = chorus_loop db limit (skipn n rest) (j + n)
        (acc ++ trimmed_lines db (firstn n rest)).
Proof.
  induction n as [|n IH]; intros rest j acc Hn Hl Hs.
  - simpl. rewrite Nat.add_0_r, app_nil_r. reflexivity.
  - destruct rest as [|l rest]; [simpl in Hn; lia|].
    simpl in Hn. simpl chorus_loop at 1.
    replace (j <? limit) with true by (symmetry; apply Nat.ltb_lt; lia).
    simpl firstn in Hs. inversion Hs as [|x xs H0 Hs']. subst x xs.
    unfold chorus_stop in H0.
    unfold trimmed_lines. simpl firstn. simpl map. simpl filter. simpl skipn.
    replace (j + S n) with (S j + n) by lia.
    destruct (is_empty (strip db l)) eqn:E; simpl in H0 |- *.
    + apply IH; auto; lia.
    + rewrite orb_false_iff in H0. destruct H0 as [-> ->].
      rewrite IH by (auto; lia). rewrite <- app_assoc. reflexivity.
Qed.

Lemma chorus_loop_acc (limit : nat) :
  forall (rest : list str) (j : nat) (acc : list str),
    exists more,
      fst (chorus_loop db limit rest j acc) = acc ++ more
      /\ j <= snd (chorus_loop db limit rest j acc)
      /\ snd (chorus_loop db limit rest j acc) <= j + length rest
      /\ snd (chorus_loop db limit rest j acc) <= Nat.max j limit
      /\ length more <= snd (chorus_loop db limit rest j acc) - j.
Proof.
  induction rest as [|l rest IH]; intros j acc; simpl.
  - exists []. rewrite app_nil_r. simpl. repeat split; lia.
  - assert (Stop : exists more : list str,
      fst (acc, j) = acc ++ more /\ j <= snd (acc, j)
      /\ snd (acc, j) <= j + S (length rest)
      /\ snd (acc, j) <= Nat.max j limit
      /\ length more <= snd (acc, j) - j).
    { exists []. rewrite app_nil_r. simpl. repeat split; lia. }
    destruct (j <? limit) eqn:L; [|exact Stop].
    apply Nat.ltb_lt in L.
    destruct (is_empty (strip db l)).
    + destruct (IH (S j) acc) as [more [H1 [H2 [H3 [H4 H5]]]]].
      exists more. repeat split; auto; lia.
    + destruct (leading_number db (strip db l)
                && (3 <? length (split_ws db (strip db l)))); [exact Stop|].
      destruct (_is_chorus_line db (strip db l)); [exact Stop|].
      destruct (IH (S j) (acc ++ [strip db l])) as [more [H1 [H2 [H3 [H4 H5]]]]].
      exists (strip db l :: more). rewrite H1, <- app_assoc. simpl.
      repeat split; auto; lia.
Qed.

Lemma chorus_loop_stops (limit : nat) :
  forall (rest : list str) (j : nat) (acc : list str) (n : nat),
    n < length rest -> chorus_stop db (nth n rest []) = true ->
    snd (chorus_loop db limit rest j acc) <= j + n.
Proof.
  induction rest as [|l rest IH]; intros j acc n Hn Hs; simpl in *; [lia|].
  destruct (j <? limit); [|simpl; lia].
  destruct n as [|n].
  - unfold chorus_stop in Hs. apply andb_true_iff in Hs.
    destruct Hs as [Hb Hs]. apply negb_true_iff in Hb. rewrite Hb.
    apply orb_true_iff in Hs. destruct Hs as [-> | Hs]; [simpl; lia|].
    rewrite Hs.
    destruct (leading_number db (strip db l)
              && (3 <? length (split_ws db (strip db l)))); simpl; lia.
  - assert (K : forall a, snd (chorus_loop db limit rest (S j) a) <= j + S n).
    { intros a. specialize (IH (S j) a n ltac:(lia) Hs). lia. }
    destruct (is_empty (strip db l)); [apply K|].
    destruct (leading_number db (strip db l)
              && (3 <? length (split_ws db (strip db l)))); [simpl; lia|].
    destruct (_is_chorus_line db (strip db l)); [simpl; lia|apply K].
Qed.

(** The chorus of a song never has more than 29 lines: the cursor of
    the loop starts at [i + 1] and stays below [i + MAX_CHORUS_LINES]. *)
Lemma chorus_at_most_29 (lines : list str) (i : nat) :
  length (fst (_extract_chorus db lines i)) <= 29
  /\ S i <= snd (_extract_chorus db lines i)
  /\ snd (_extract_chorus db lines i) <= Nat.max (S i) (length lines)
  /\ snd (_extract_chorus db lines i) <= i + MAX_CHORUS_LINES.
Proof.
  unfold _extract_chorus, MAX_CHORUS_LINES.
  destruct (chorus_loop_acc (i + 30) (skipn (S i) lines) (S i) [])
    as [more [H1 [H2 [H3 [H4 H5]]]]].
  rewrite H1. simpl length. rewrite length_skipn in H3.
  repeat split; lia.
Qed.

Lemma numbered_loop_run :
  forall (n : nat) (rest : list str) (j : nat) (acc : list str),
    n <= length rest -> length acc + n <= MAX_VERSE_LINES ->
    Forall (plain_line db) (firstn n rest) ->
    numbered_loop db rest j acc
    = numbered_loop db (skipn n rest) (j + n)
        (acc ++ map (strip db) (firstn n rest)).
Proof.
  induction n as [|n IH]; intros rest j acc Hn Hl Hs.
  - simpl. rewrite Nat.add_0_r, app_nil_r. reflexivity.
  - destruct rest as [|l rest]; [simpl in Hn; lia|].
    simpl in Hn. simpl numbered_loop at 1.
    replace (length acc <? MAX_VERSE_LINES) with true
      by (symmetry; apply Nat.ltb_lt; lia).
    simpl firstn in Hs. inversion Hs as [|x xs H0 Hs']. subst x xs.
    destruct H0 as [Hb [-> ->]]. unfold nonblank in Hb.
    apply negb_true_iff in Hb. rewrite Hb.
    simpl firstn. simpl map. simpl skipn.
    replace (j + S n) with (S j + n) by lia.
    rewrite IH.
    + rewrite <- app_assoc. reflexivity.
    + lia.
    + rewrite length_app. simpl. lia.
    + exact Hs'.
Qed.

Lemma numbered_loop_full (rest : list str) (j : nat) (acc : list str) :
  MAX_VERSE_LINES <= length acc -> numbered_loop db rest j acc = (acc, j).
Proof.
  intros H. destruct rest as [|l rest]; simpl; [reflexivity|].
  replace (length acc <? MAX_VERSE_LINES) with false; [reflexivity|].
  symmetry. apply Nat.ltb_ge. exact H.
Qed.

(** What the two verse loops keep: the accumulated lines stay stored
    lines, their number stays within the cap, the cursor moves on. *)
Lemma numbered_loop_inv :
  forall (rest : list str) (j : nat) (acc : list str),
    Forall (stored_line db) acc -> length acc <= MAX_VERSE_LINES ->
    Forall (stored_line db) (fst (numbered_loop db rest j acc))
    /\ length acc <= length (fst (numbered_loop db rest j acc))
    /\ length (fst (numbered_loop db rest j acc)) <= MAX_VERSE_LINES
    /\ j <= snd (numbered_loop db rest j acc)
    /\ snd (numbered_loop db rest j acc) <= j + length rest.
Proof.
  induction rest as [|l rest IH]; intros j acc Ha Hl; simpl.
  - repeat split; auto; lia.
  - destruct (length acc <? MAX_VERSE_LINES) eqn:L;
      [|simpl; repeat split; auto; lia].
    apply Nat.ltb_lt in L.
    destruct (is_empty (strip db l)) eqn:E.
    + destruct (IH (S j) acc Ha Hl) as [H1 [H2 [H3 [H4 H5]]]].
      repeat split; auto; lia.
    + destruct (leading_number db (strip db l));
        [simpl; repeat split; auto; lia|].
      destruct (_is_chorus_line db (strip db l));
        [simpl; repeat split; auto; lia|].
      assert (Ha' : Forall (stored_line db) (acc ++ [strip db l])).
      { apply Forall_app. split; auto. constructor; auto. split.
        - intros K. rewrite K in E. discriminate.
        - apply strip_no_outer_space. }
      assert (Hl' : length (acc ++ [strip db l]) <= MAX_VERSE_LINES)
        by (rewrite length_app; simpl; lia).
      destruct (IH (S j) _ Ha' Hl') as [H1 [H2 [H3 [H4 H5]]]].
      rewrite length_app in H2. simpl in H2.
      repeat split; auto; lia.
Qed.

Lemma unnumbered_loop_inv :
  forall (rest : list str) (j : nat) (acc : list str),
    Forall (stored_line db) acc -> length acc <= 4 ->
    Forall (stored_line db) (fst (unnumbered_loop db rest j acc))
    /\ length acc <= length (fst (unnumbered_loop db rest j acc))
    /\ length (fst (unnumbered_loop db rest j acc)) <= 4
    /\ j <= snd (unnumbered_loop db rest j acc)
    /\ snd (unnumbered_loop db rest j acc) <= j + length rest.
Proof.
  induction rest as [|l rest IH]; intros j acc Ha Hl; simpl.
  - repeat split; auto; lia.
  - destruct (length acc <? 4) eqn:L;
      [|simpl; repeat split; auto; lia].
    apply Nat.ltb_lt in L.
    destruct (is_empty (strip db l)) eqn:E.
    + destruct (IH (S j) acc Ha Hl) as [H1 [H2 [H3 [H4 H5]]]].
      repeat split; auto; lia.
    + destruct (leading_number db (strip db l)
                && (3 <? length (split_ws db (strip db l))));
        [simpl; repeat split; auto; lia|].
      destruct (_is_chorus_line db (strip db l));
        [simpl; repeat split; auto; lia|].
      assert (Ha' : Forall (stored_line db) (acc ++ [strip db l])).
      { apply Forall_app. split; auto. constructor; auto. split.
        - intros K. rewrite K in E. discriminate.
        - apply strip_no_outer_space. }
      assert (Hl' : length (acc ++ [strip db l]) <= 4)
        by (rewrite length_app; simpl; lia).
      destruct (IH (S j) _ Ha' Hl') as [H1 [H2 [H3 [H4 H5]]]].
      rewrite length_app in H2. simpl in H2.
      repeat split; auto; lia.
Qed.

Lemma numbered_loop_cursor :
  forall (rest : list str) (j : nat) (acc : list str),
    j <= snd (numbered_loop db rest j acc)
    /\ snd (numbered_loop db rest j acc) <= j + length rest.
Proof.
  induction rest as [|l rest IH]; intros j acc; simpl; [lia|].
  pose proof (IH (S j) acc). pose proof (IH (S j) (acc ++ [strip db l])).
  destruct (length acc <? MAX_VERSE_LINES); [|simpl; lia].
  destruct (is_empty (strip db l)); [lia|].
  destruct (leading_number db (strip db l)); [simpl; lia|].
  destruct (_is_chorus_line db (strip db l)); [simpl; lia|lia].
Qed.

Lemma unnumbered_loop_cursor :
  forall (rest : list str) (j : nat) (acc : list str),
    j <= snd (unnumbered_loop db rest j acc)
    /\ snd (unnumbered_loop db rest j acc) <= j + length rest.
Proof.
  induction rest as [|l rest IH]; intros j acc; simpl; [lia|].
  pose proof (IH (S j) acc). pose proof (IH (S j) (acc ++ [strip db l])).
  destruct (length acc <? 4); [|simpl; lia].
  destruct (is_empty (strip db l)); [lia|].
  destruct (leading_number db (strip db l)
            && (3 <? length (split_ws db (strip db l)))); [simpl; lia|].
  destruct (_is_chorus_line db (strip db l)); [simpl; lia|lia].
Qed.

Lemma numbered_loop_length :
  forall (rest : list str) (j : nat) (acc : list str),
    length acc <= MAX_VERSE_LINES ->
    length (fst (numbered_loop db rest j acc)) <= MAX_VERSE_LINES.
Proof.
  induction rest as [|l rest IH]; intros j acc Hl; simpl; [exact Hl|].
  destruct (length acc <? MAX_VERSE_LINES) eqn:L; [|exact Hl].
  apply Nat.ltb_lt in L.
  destruct (is_empty (strip db l)); [apply IH, Hl|].
  destruct (leading_number db (strip db l)); [exact Hl|].
  destruct (_is_chorus_line db (strip db l)); [exact Hl|].
  apply IH. rewrite length_app. simpl. lia.
Qed.

Lemma unnumbered_loop_length :
  forall (rest : list str) (j : nat) (acc : list str),
    length acc <= 4 -> length (fst (unnumbered_loop db rest j acc)) <= 4.
Proof.
  induction rest as [|l rest IH]; intros j acc Hl; simpl; [exact Hl|].
  destruct (length acc <? 4) eqn:L; [|exact Hl].
  apply Nat.ltb_lt in L.
  destruct (is_empty (strip db l)); [apply IH, Hl|].
  destruct (leading_number db (strip db l)
            && (3 <? length (split_ws db (strip db l)))); [exact Hl|].
  destruct (_is_chorus_line db (strip db l)); [exact Hl|].
  apply IH. rewrite length_app. simpl. lia.
Qed.

End LoopFacts.

(** ** The main loop *)

Section DetectorFacts.

Variable db : UnicodeDB.

Lemma nth_line_feed_free (lines : list str) (i : nat) :
  Forall line_feed_free lines -> line_feed_free (nth i lines []).
Proof.
  intros H. destruct (Nat.lt_ge_cases i (length lines)) as [L|L].
  - rewrite Forall_forall in H. apply H, nth_In, L.
  - rewrite nth_overflow by exact L. intros [].
Qed.

Lemma extract_numbered_cursor (lines : list str) (i : nat) (m : str * str) :
  S i <= snd (_extract_numbered_verse db lines i m)
  /\ snd (_extract_numbered_verse db lines i m)
     <= Nat.max (S i) (length lines).
Proof.
  unfold _extract_numbered_verse.
  destruct (length (split_ws db (snd m)) <=? 15); [|cbn [fst snd cursor set_current advance]; lia].
  destruct (numbered_loop db (skipn (S i) lines) (S i) [snd m])
    as [collected j] eqn:E.
  assert (Hj : S i <= j /\ j <= S i + length (skipn (S i) lines)).
  { pose proof (numbered_loop_cursor db (skipn (S i) lines) (S i) [snd m])
      as H.
    rewrite E in H. cbn [fst snd] in H. lia. }
  rewrite length_skipn in Hj.
  destruct (10 <? length (strip db (join [SP] collected))); cbn [fst snd cursor set_current advance]; lia.
Qed.

Lemma extract_numbered_ok (lines : list str) (i : nat) (m : str * str)
    (v : verse) :
  stored_line db (snd m) ->
  fst (_extract_numbered_verse db lines i m) = Some v -> verse_ok db v.
Proof.
  unfold _extract_numbered_verse. intros Hm.
  destruct (length (split_ws db (snd m)) <=? 15); [|discriminate].
  destruct (numbered_loop db (skipn (S i) lines) (S i) [snd m])
    as [collected j] eqn:E.
  destruct (numbered_loop_inv db (skipn (S i) lines) (S i) [snd m])
    as [H1 [H2 [H3 _]]].
  - constructor; auto.
  - unfold MAX_VERSE_LINES. simpl. lia.
  - rewrite E in H1, H2, H3. simpl in H1, H2, H3.
    destruct (10 <? length (strip db (join [SP] collected))); [|discriminate].
    simpl. intros H. inversion H. subst v. unfold verse_ok. simpl. auto.
Qed.

Lemma extract_unnumbered_cursor (lines : list str) (i : nat) (cur : song) :
  S i <= snd (_extract_unnumbered_verse db lines i cur)
  /\ snd (_extract_unnumbered_verse db lines i cur)
     <= Nat.max (S i) (length lines).
Proof.
  unfold _extract_unnumbered_verse.
  destruct (unnumbered_loop db (skipn (S i) lines) (S i)
              [strip db (nth i lines [])]) as [collected j] eqn:E.
  assert (Hj : S i <= j /\ j <= S i + length (skipn (S i) lines)).
  { pose proof (unnumbered_loop_cursor db (skipn (S i) lines) (S i)
                  [strip db (nth i lines [])]) as H.
    rewrite E in H. cbn [fst snd] in H. lia. }
  rewrite length_skipn in Hj.
  destruct ((length (verses cur) =? 0) || (15 <? length (join [SP] collected)));
    cbn [fst snd cursor set_current advance]; lia.
Qed.

Lemma extract_unnumbered_ok (lines : list str) (i : nat) (cur : song)
    (v : verse) :
  strip db (nth i lines []) <> [] ->
  fst (_extract_unnumbered_verse db lines i cur) = Some v -> verse_ok db v.
Proof.
  unfold _extract_unnumbered_verse. intros Hne.
  destruct (unnumbered_loop db (skipn (S i) lines) (S i)
              [strip db (nth i lines [])]) as [collected j] eqn:E.
  destruct (unnumbered_loop_inv db (skipn (S i) lines) (S i)
              [strip db (nth i lines [])]) as [H1 [H2 [H3 _]]].
  - constructor; auto. split; auto. apply strip_no_outer_space.
  - simpl. lia.
  - rewrite E in H1, H2, H3. simpl in H1, H2, H3.
    destruct ((length (verses cur) =? 0)
              || (15 <? length (join [SP] collected))); [|discriminate].
    simpl. intros H. inversion H. subst v. unfold verse_ok, MAX_VERSE_LINES.
    simpl. split; auto; lia.
Qed.

(** Every iteration moves the cursor forward, and not beyond the end. *)
Lemma step_cursor (lines : list str) (st : state) :
  cursor st < cursor (step db lines st)
  /\ cursor (step db lines st) <= Nat.max (S (cursor st)) (length lines).
Proof.
  unfold step.
  destruct (is_empty (strip db (nth (cursor st) lines []))); [cbn [fst snd cursor set_current advance]; lia|].
  destruct (song_header db lines (cursor st) _); [cbn [fst snd cursor set_current advance]; lia|].
  destruct (_is_main_title db _ _ _); [cbn [fst snd cursor set_current advance]; lia|].
  destruct (if _is_chorus_line db _ then current_song st else None).
  { pose proof (chorus_at_most_29 db lines (cursor st)) as H.
    destruct (_extract_chorus db lines (cursor st)). cbn [fst snd cursor set_current advance] in *; lia. }
  destruct (numbered_match db _) as [m|];
    destruct (current_song st) as [cur|]; try (cbn [fst snd cursor set_current advance]; lia).
  - pose proof (extract_numbered_cursor lines (cursor st) m) as H.
    destruct (_extract_numbered_verse db lines (cursor st) m).
    cbn [fst snd cursor set_current advance] in *; lia.
  - destruct (_is_potential_verse db _); [|cbn [fst snd cursor set_current advance]; lia].
    pose proof (extract_unnumbered_cursor lines (cursor st) cur) as H.
    destruct (_extract_unnumbered_verse db lines (cursor st) cur).
    cbn [fst snd cursor set_current advance] in *; lia.
Qed.

Lemma append_verse_ok (cur : song) (vd : option verse) :
  song_ok db cur -> (forall v, vd = Some v -> verse_ok db v) ->
  song_ok db (append_verse cur vd).
Proof.
  intros Hc Hv. destruct vd as [v|]; simpl; auto.
  unfold song_ok. simpl. apply Forall_app. split; auto.
Qed.

Lemma step_ok (lines : list str) (st : state) :
  Forall line_feed_free lines -> state_ok db st ->
  state_ok db (step db lines st).
Proof.
  intros Hlf [Hs Hc]. unfold step.
  set (i := cursor st). set (line := strip db (nth i lines [])).
  assert (Hline : line_feed_free line)
    by (apply strip_line_feed_free, nth_line_feed_free, Hlf).
  assert (Hno : no_outer_space db line = true)
    by apply strip_no_outer_space.
  destruct (is_empty line) eqn:E; [split; assumption|].
  assert (Hne : line <> []) by (intros K; rewrite K in E; discriminate).
  destruct (song_header db lines i line) as [m|].
  { split; simpl.
    - unfold close_song. destruct (current_song st) as [cur|]; auto.
      apply Forall_app. split; auto.
    - intros cur K. inversion K. constructor. }
  destruct (_is_main_title db line (st_title st) (current_song st));
    [split; assumption|].
  destruct (if _is_chorus_line db line then current_song st else None)
    as [cur|] eqn:H3.
  { assert (Hcur : current_song st = Some cur)
      by (destruct (_is_chorus_line db line); [exact H3|discriminate]).
    destruct (_extract_chorus db lines i) as [chorus_lines next_i].
    split; simpl; auto. intros c K. inversion K. subst c.
    apply (Hc _ Hcur). }
  destruct (numbered_match db line) as [m|] eqn:H4;
    destruct (current_song st) as [cur|] eqn:H5;
    try (split; [assumption|]; simpl; rewrite H5; exact Hc).
  - destruct m as [d t].
    destruct (numbered_match_inv db _ _ _ H4 Hline Hno) as [Ht [Hto _]].
    destruct (_extract_numbered_verse db lines i (d, t))
      as [vd next_i] eqn:H6.
    split; simpl; auto. intros c K. inversion K. subst c.
    apply append_verse_ok; auto. intros v Hv.
    apply (@extract_numbered_ok lines i (d, t) v); [split; assumption|].
    rewrite H6. exact Hv.
  - destruct (_is_potential_verse db line);
      [|split; [assumption|]; simpl; rewrite H5; exact Hc].
    destruct (_extract_unnumbered_verse db lines i cur)
      as [vd next_i] eqn:H6.
    split; simpl; auto. intros c K. inversion K. subst c.
    apply append_verse_ok; auto. intros v Hv.
    apply (@extract_unnumbered_ok lines i cur v); [exact Hne|].
    rewrite H6. exact Hv.
Qed.

(** With one unit of fuel per remaining line the loop reaches the end,
    and an invariant of [step] holds of the final state. *)
Lemma main_loop_ends (Inv : state -> Prop) (lines : list str) :
  (forall st, Inv st -> Inv (step db lines st)) ->
  forall (fuel : nat) (st : state),
    length lines - cursor st <= fuel -> Inv st ->
    exists st', main_loop db fuel lines st = Some st' /\ Inv st'
                /\ length lines <= cursor st'.
Proof.
  intros Hstep. induction fuel as [|fuel IH]; intros st Hf Hi; simpl.
  - replace (cursor st <? length lines) with false
      by (symmetry; apply Nat.ltb_ge; lia).
    exists st. repeat split; auto. lia.
  - destruct (cursor st <? length lines) eqn:L.
    + apply IH; [|apply Hstep, Hi].
      pose proof (step_cursor lines st). lia.
    + apply Nat.ltb_ge in L. exists st. auto.
Qed.

Lemma main_loop_more_fuel (lines : list str) :
  forall (fuel extra : nat) (st st' : state),
    main_loop db fuel lines st = Some st' ->
    main_loop db (fuel + extra) lines st = Some st'.
Proof.
  induction fuel as [|fuel IH]; intros extra st st'; simpl.
  - destruct (cursor st <? length lines) eqn:L; [discriminate|].
    intros H. destruct extra; simpl; rewrite L; exact H.
  - destruct (cursor st <? length lines); auto.
Qed.

Lemma detect_structure_inv (Inv : state -> Prop) (text : str) :
  (forall st, Inv st -> Inv (step db (split_on LF text) st)) ->
  Inv initial_state ->
  exists st,
    main_loop db (length (split_on LF text)) (split_on LF text) initial_state
    = Some st
    /\ detect_structure db text = Some (finish db (split_on LF text) st)
    /\ Inv st.
Proof.
  intros Hstep H0.
  destruct (main_loop_ends Inv (split_on LF text) Hstep
              (length (split_on LF text)) initial_state)
    as [st [H1 [H2 _]]]; auto.
  { simpl. lia. }
  exists st. unfold detect_structure. rewrite H1. auto.
Qed.

End DetectorFacts.

(** ** The document returned by [detect_structure] *)

(** C9: [detect_structure] terminates on every input.  Each iteration of
    the main loop moves the cursor forward by at least one line and never
    past the end of the lines; the chorus loop keeps its cursor below
    [i + 30] and the two verse loops keep at most 6 and 4 lines; so one
    unit of fuel per line yields the document, and more fuel yields the
    same document. *)
Theorem detect_structure_total (db : UnicodeDB) :
  (forall lines st,
     cursor st < cursor (step db lines st)
     /\ cursor (step db lines st) <= Nat.max (S (cursor st)) (length lines))
  /\ (forall lines i,
        length (fst (_extract_chorus db lines i)) <= MAX_CHORUS_LINES
        /\ snd (_extract_chorus db lines i) <= i + MAX_CHORUS_LINES
        /\ snd (_extract_chorus db lines i) <= Nat.max (S i) (length lines))
  /\ (forall rest j verse_text,
        length (fst (numbered_loop db rest j [verse_text])) <= MAX_VERSE_LINES
        /\ snd (numbered_loop db rest j [verse_text]) <= j + length rest)
  /\ (forall rest j line,
        length (fst (unnumbered_loop db rest j [line])) <= 4
        /\ snd (unnumbered_loop db rest j [line]) <= j + length rest)
  /\ (forall text,
        exists doc,
          detect_structure db text = Some doc
          /\ forall extra,
               option_map (finish db (split_on LF text))
                 (main_loop db (length (split_on LF text) + extra)
                    (split_on LF text) initial_state)
               = Some doc).
Proof.
  split; [intros; apply step_cursor|].
  split.
  { intros lines i. pose proof (chorus_at_most_29 db lines i).
    unfold MAX_CHORUS_LINES in *. lia. }
  split.
  { intros rest j t. split.
    - apply numbered_loop_length. unfold MAX_VERSE_LINES. simpl. lia.
    - apply numbered_loop_cursor. }
  split.
  { intros rest j l. split.
    - apply unnumbered_loop_length. simpl. lia.
    - apply unnumbered_loop_cursor. }
  intros text.
  destruct (detect_structure_inv db (fun _ => True) text) as [st [H1 [H2 _]]];
    auto.
  exists (finish db (split_on LF text) st). split; [exact H2|].
  intros extra. rewrite (main_loop_more_fuel db _ _ extra _ _ H1).
  reflexivity.
Qed.

(** C5: every song of the final document has at least one verse or a
    non-empty chorus, for every input text. *)
Theorem final_songs_have_content (db : UnicodeDB) (text : str) :
  exists doc,
    detect_structure db text = Some doc
    /\ Forall song_has_content (songs doc).
Proof.
  destruct (detect_structure_inv db (fun _ => True) text) as [st [_ [H _]]];
    auto.
  exists (finish db (split_on LF text) st). split; [exact H|].
  unfold finish, _filter_valid_songs. simpl.
  apply Forall_forall. intros s Hs. apply filter_In in Hs.
  destruct Hs as [_ Hs]. unfold song_has_content.
  apply orb_true_iff in Hs.
  destruct Hs as [Hs|Hs]; [left|right]; intros K; rewrite K in Hs;
    discriminate.
Qed.

(** A header alone opens a song that is dropped from the document. *)
Example header_only_song_dropped :
  option_map songs (detect_structure basic_latin (lit "12 Rock of Ages"))
  = Some [].
Proof. vm_compute. reflexivity. Qed.

(** C10: in the final document every verse of every song has between 1
    and 6 lines, and each of them is a non-empty string without leading
    or trailing whitespace. *)
Theorem final_verses_well_formed (db : UnicodeDB) (text : str) :
  exists doc,
    detect_structure db text = Some doc
    /\ Forall (fun s =>
         Forall (fun v =>
           1 <= length (verse_lines v) <= 6
           /\ Forall (fun l => l <> [] /\ no_outer_space db l = true)
                (verse_lines v))
           (verses s))
         (songs doc).
Proof.
  destruct (detect_structure_inv db (state_ok db) text) as [st [_ [H [Hs Hc]]]].
  - intros st. apply step_ok, split_on_line_feed_free.
  - split; [constructor|]. intros cur K. discriminate.
  - exists (finish db (split_on LF text) st). split; [exact H|].
    unfold finish, _filter_valid_songs. simpl.
    apply Forall_forall. intros s Hin. apply filter_In in Hin.
    destruct Hin as [Hin _].
    assert (Hok : song_ok db s).
    { unfold close_song in Hin. destruct (current_song st) as [cur|].
      - apply in_app_or in Hin. destruct Hin as [Hin|[<-|[]]].
        + rewrite Forall_forall in Hs. apply Hs, Hin.
        + apply Hc. reflexivity.
      - rewrite Forall_forall in Hs. apply Hs, Hin. }
    exact Hok.
Qed.

(** ** The detector-boundary example *)

(** C1, as amended: on the boundary input the document has exactly one
    song, number "1" and title "Amazing Grace"; its only verse, numbered
    "1", holds the three remaining lines, the line "2 Second Song" among
    them (it has three words, and the unnumbered-verse loop stops only at
    a leading-number line of more than three words). *)
Theorem boundary_input_document :
  detect_structure basic_latin boundary_input
  = Some {| title := [];
            songs :=
              [ {| song_number := lit "1";
                   song_title := lit "Amazing Grace";
                   verses :=
                     [ {| verse_number := lit "1";
                          verse_lines :=
                            [ lit "How sweet the sound";
                              lit "2 Second Song";
                              lit "More words here" ] |} ];
                   chorus := [] |} ];
            total_lines := 4 |}.
Proof. vm_compute. reflexivity. Qed.

(** C1 as stated fails: the document for the boundary input does not
    have two songs "1 Amazing Grace" and "2 Second Song". *)
Lemma boundary_input_not_two_songs :
  ~ (exists doc s1 s2,
       detect_structure basic_latin boundary_input = Some doc
       /\ songs doc = [s1; s2]
       /\ song_number s1 = lit "1" /\ song_title s1 = lit "Amazing Grace"
       /\ song_number s2 = lit "2" /\ song_title s2 = lit "Second Song").
Proof.
  intros [doc [s1 [s2 [H [Hs _]]]]].
  vm_compute in H. inversion H. subst doc. discriminate Hs.
Qed.

(** ** Verse and chorus extraction *)

Section ExtractionFacts.

Variable db : UnicodeDB.

Lemma skipn_nth_cons (lines : list str) (k : nat) :
  k < length lines ->
  skipn k lines = nth k lines [] :: skipn (S k) lines.
Proof.
  revert k. induction lines as [|l lines IH]; intros k Hk; simpl in Hk.
  - lia.
  - destruct k as [|k]; [reflexivity|]. simpl. apply IH. lia.
Qed.

Lemma Forall_firstn_le (P : str -> Prop) (n m : nat) (ls : list str) :
  n <= m -> Forall P (firstn m ls) -> Forall P (firstn n ls).
Proof.
  intros Hnm H. replace n with (Nat.min n m) by lia.
  rewrite <- firstn_firstn. apply Forall_forall. intros x Hx.
  rewrite Forall_forall in H. apply H.
  rewrite <- (firstn_skipn n (firstn m ls)). apply in_or_app. left. exact Hx.
Qed.

Lemma trimmed_lines_plain (ls : list str) :
  Forall (fun l => nonblank db l = true) ls ->
  trimmed_lines db ls = map (strip db) ls.
Proof.
  unfold trimmed_lines. induction ls as [|l ls IH]; intros H; [reflexivity|].
  inversion H as [|x xs Hl Hls]. subst. simpl.
  unfold nonblank in Hl. rewrite Hl. f_equal. apply IH, Hls.
Qed.

Lemma join_length_ge (ls : list str) :
  Forall (fun l => l <> []) ls ->
  2 * length ls <= length (join [SP] ls) + 1.
Proof.
  induction ls as [|p ls IH]; intros H; [simpl; lia|].
  inversion H as [|x xs Hp Hls]. subst. specialize (IH Hls).
  assert (1 <= length p) by (destruct p; [congruence|simpl; lia]).
  destruct ls as [|q r].
  - simpl. lia.
  - change (join [SP] (p :: q :: r)) with (p ++ [SP] ++ join [SP] (q :: r)).
    rewrite !length_app. simpl length in *. lia.
Qed.

(** Joining stored lines with single spaces gives a trimmed string. *)
Lemma join_stored (ls : list str) :
  ls <> [] -> Forall (stored_line db) ls -> stored_line db (join [SP] ls).
Proof.
  induction ls as [|p ls IH]; intros Hne H; [congruence|].
  inversion H as [|x xs Hp Hls]. subst.
  destruct ls as [|q r]; [exact Hp|].
  destruct (IH ltac:(discriminate) Hls) as [Xne Xno].
  change (join [SP] (p :: q :: r)) with (p ++ [SP] ++ join [SP] (q :: r)).
  destruct Hp as [Pne Pno]. destruct p as [|c t]; [congruence|].
  split; [discriminate|].
  destruct (join [SP] (q :: r)) as [|x X'] eqn:EX; [congruence|].
  assert (Pc : isspace db c = false).
  { unfold no_outer_space in Pno. apply andb_true_iff in Pno.
    destruct Pno as [Pc _]. apply negb_true_iff in Pc. exact Pc. }
  assert (Xl : isspace db (last (x :: X') x) = false).
  { unfold no_outer_space in Xno. apply andb_true_iff in Xno.
    destruct Xno as [_ Xl]. apply negb_true_iff in Xl. exact Xl. }
  change ((c :: t) ++ [SP] ++ x :: X') with (c :: (t ++ [SP] ++ x :: X')).
  unfold no_outer_space. rewrite Pc.
  replace (c :: t ++ [SP] ++ x :: X') with ((c :: t ++ [SP]) ++ x :: X')
    by (simpl; rewrite <- app_assoc; reflexivity).
  rewrite (@last_app_nonempty _ (c :: t ++ [SP]) (x :: X') c x)
    by discriminate.
  rewrite Xl. reflexivity.
Qed.

Lemma plain_line_stored (l : str) :
  plain_line db l -> stored_line db (strip db l).
Proof.
  intros [Hb _]. unfold nonblank in Hb. split.
  - intros K. rewrite K in Hb. discriminate.
  - apply strip_no_outer_space.
Qed.

End ExtractionFacts.

(** C6: a numbered verse start whose captured text has at most 15 words,
    followed by 50 consecutive plain lines (non-blank, no leading number,
    no chorus keyword), yields a verse of exactly 6 lines: the captured
    text and the next 5 lines; the cursor stops after them. *)
Theorem numbered_verse_capped (db : UnicodeDB) (lines : list str) (i : nat)
    (num text : str) :
  line_feed_free (nth i lines []) ->
  numbered_match db (strip db (nth i lines [])) = Some (num, text) ->
  length (split_ws db text) <= 15 ->
  i + 50 < length lines ->
  Forall (plain_line db) (slice lines (S i) (S i + 50)) ->
  exists v,
    _extract_numbered_verse db lines i (num, text) = (Some v, i + 6)
    /\ verse_number v = num
    /\ verse_lines v = text :: map (strip db) (slice lines (S i) (S i + 5))
    /\ length (verse_lines v) = 6.
Proof.
  intros Hlf Hm Hw Hlen Hplain.
  destruct (numbered_match_inv db _ _ _ Hm (strip_line_feed_free db _ Hlf)
              (strip_no_outer_space db _)) as [Hne [Hno _]].
  unfold slice in *. replace (S i + 50 - S i) with 50 in Hplain by lia.
  replace (S i + 5 - S i) with 5 by lia.
  assert (H5 : Forall (plain_line db) (firstn 5 (skipn (S i) lines))).
  { apply Forall_firstn_le with (m := 50); [lia|exact Hplain]. }
  assert (L5 : length (firstn 5 (skipn (S i) lines)) = 5).
  { rewrite length_firstn, length_skipn. lia. }
  unfold _extract_numbered_verse. cbn [fst snd].
  replace (length (split_ws db text) <=? 15) with true
    by (symmetry; apply Nat.leb_le; exact Hw).
  rewrite (numbered_loop_run db 5 (skipn (S i) lines) (S i) [text]);
    [|rewrite length_skipn; lia|unfold MAX_VERSE_LINES; simpl; lia|exact H5].
  rewrite numbered_loop_full
    by (rewrite length_app, length_map, L5; unfold MAX_VERSE_LINES;
        simpl; lia).
  set (collected := [text] ++ map (strip db) (firstn 5 (skipn (S i) lines))).
  assert (Hst : Forall (stored_line db) collected).
  { apply Forall_app. split; [constructor; [split; assumption|constructor]|].
    apply Forall_forall. intros x Hx. apply in_map_iff in Hx.
    destruct Hx as [l [<- Hl]]. apply plain_line_stored.
    rewrite Forall_forall in H5. apply H5, Hl. }
  assert (Hc6 : length collected = 6).
  { unfold collected. rewrite length_app, length_map, L5. reflexivity. }
  destruct (join_stored db collected) as [_ Jno]; auto.
  { unfold collected. discriminate. }
  rewrite (strip_fixed db _ Jno).
  assert (Hj : 2 * length collected <= length (join [SP] collected) + 1).
  { apply join_length_ge. eapply Forall_impl; [|exact Hst].
    intros a [Ha _]. exact Ha. }
  replace (10 <? length (join [SP] collected)) with true
    by (symmetry; apply Nat.ltb_lt; lia).
  eexists. split; [replace (S i + 5) with (i + 6) by lia; reflexivity|].
  cbn [verse_number verse_lines]. repeat split. exact Hc6.
Qed.

Lemma numbered_verse_capped_witness :
  exists v,
    _extract_numbered_verse basic_latin fifty_lines 0
      (lit "1", lit "Joy") = (Some v, 6)
    /\ verse_number v = lit "1"
    /\ verse_lines v
       = lit "Joy"
         :: map (strip basic_latin) (slice fifty_lines 1 6)
    /\ length (verse_lines v) = 6.
Proof.
  apply (numbered_verse_capped basic_latin fifty_lines 0
           (lit "1") (lit "Joy")).
  - vm_compute. intros H. repeat (destruct H as [H|H]; [discriminate H|]).
    exact H.
  - vm_compute. reflexivity.
  - vm_compute. lia.
  - vm_compute. lia.
  - apply Forall_forall. intros l Hl.
    change (slice fifty_lines 1 (1 + 50)) with (repeat (lit "to the world") 50)
      in Hl.
    apply repeat_spec in Hl. subst l. vm_compute. auto.
Defined.

(** In [detect_structure] the numbered line of [fifty_lines_text] opens a
    verse of 6 lines; the 45 lines left are then taken 4 at a time as
    unnumbered verses (the last one, alone and short, is dropped). *)
Example fifty_lines_first_verse :
  option_map
    (fun doc => map (fun s => map (fun v => length (verse_lines v)) (verses s))
                  (songs doc))
    (detect_structure basic_latin fifty_lines_text)
  = Some [[6; 4; 4; 4; 4; 4; 4; 4; 4; 4; 4; 4]].
Proof. vm_compute. reflexivity. Qed.

(** C8, which [_extract_numbered_verse] breaks.  In [reread_line_text]
    line 1, "2 ab", opens a numbered verse; the collection loop goes over
    line 2 and ends with its cursor at 3, the joined text "ab xy zw k"
    has 10 characters and no verse is emitted.  [_extract_numbered_verse]
    then returns the cursor 2 and not 3, so that [detect_structure] reads
    line 2 once more and stores it as an unnumbered verse.  The same rule
    in [invoices.py] moves the cursor to 3, past the lines gone over, as
    the claim has it. *)
Theorem rejected_verse_line_read_again :
  numbered_match basic_latin (nth 1 (split_on LF reread_line_text) [])
  = Some (lit "2", lit "ab")
  /\ numbered_loop basic_latin (skipn 2 (split_on LF reread_line_text)) 2
       [lit "ab"]
     = ([lit "ab"; lit "xy zw k"], 3)
  /\ _extract_numbered_verse basic_latin (split_on LF reread_line_text) 1
       (lit "2", lit "ab")
     = (None, 2)
  /\ invoices_numbered_verse basic_latin (split_on LF reread_line_text) 1
       (lit "2", lit "ab")
     = (None, 3)
  /\ detect_structure basic_latin reread_line_text
     = Some {| title := [];
               songs :=
                 [ {| song_number := lit "1"; song_title := lit "First Song";
                      verses :=
                        [ {| verse_number := lit "1";
                             verse_lines := [lit "xy zw k"] |} ];
                      chorus := [] |} ];
               total_lines := 3 |}.
Proof. vm_compute. repeat split. Qed.

(** C2, which [_extract_chorus] breaks.  In [swallowed_header_text] the
    chorus marker is line 1, and line 3, "2 Second Song", matches the
    leading-number pattern with 3 words.  The loop of [_extract_chorus]
    tests the pattern and the word count in one condition: it takes line
    3 as a chorus line and runs to the end of the text, so that
    [detect_structure] returns song 1 alone, with the header of song 2 in
    its chorus.  The same loop in [invoices.py] stops at line 3, as the
    claim has it. *)
Theorem chorus_swallows_song_header :
  leading_number basic_latin (nth 3 (split_on LF swallowed_header_text) [])
  = true
  /\ _extract_chorus basic_latin (split_on LF swallowed_header_text) 1
     = ([lit "Praise the Lord"; lit "2 Second Song";
         lit "Sing a new song to him"], 5)
  /\ invoices_chorus basic_latin (split_on LF swallowed_header_text) 1
     = ([lit "Praise the Lord"], 3)
  /\ detect_structure basic_latin swallowed_header_text
     = Some {| title := [];
               songs :=
                 [ {| song_number := lit "1"; song_title := lit "First Song";
                      verses := [];
                      chorus :=
                        [ lit "Praise the Lord"; lit "2 Second Song";
                          lit "Sing a new song to him" ] |} ];
               total_lines := 5 |}.
Proof. vm_compute. repeat split. Qed.

(** C7, as amended: the cap of the chorus loop bounds its cursor, which
    starts at [i + 1] and stays below [i + 30], blank lines included; a
    chorus therefore has at most 29 lines, and when the 29 lines after
    the marker are plain lines the chorus is exactly these 29 lines and
    the cursor ends at [i + 30]. *)
Theorem chorus_window_collects_29 (db : UnicodeDB) (lines : list str)
    (i : nat) :
  length (fst (_extract_chorus db lines i)) <= 29
  /\ (i + 29 < length lines ->
      Forall (plain_line db) (slice lines (S i) (i + MAX_CHORUS_LINES)) ->
      _extract_chorus db lines i
      = (map (strip db) (slice lines (S i) (i + MAX_CHORUS_LINES)),
         i + MAX_CHORUS_LINES)
      /\ length (fst (_extract_chorus db lines i)) = 29).
Proof.
  split; [apply chorus_at_most_29|].
  intros Hlen Hplain.
  assert (E : _extract_chorus db lines i
              = (map (strip db) (slice lines (S i) (i + MAX_CHORUS_LINES)),
                 i + MAX_CHORUS_LINES)).
  { unfold _extract_chorus, slice, MAX_CHORUS_LINES in *.
    replace (i + 30 - S i) with 29 in * by lia.
    rewrite (chorus_loop_run db (i + 30) 29 (skipn (S i) lines) (S i) []);
      [|rewrite length_skipn; lia|lia|].
    - replace (S i + 29) with (i + 30) by lia. cbn [app].
      rewrite trimmed_lines_plain.
      + destruct (skipn 29 (skipn (S i) lines)); simpl; [reflexivity|].
        rewrite Nat.ltb_irrefl. reflexivity.
      + eapply Forall_impl; [|exact Hplain]. intros l [Hb _]. exact Hb.
    - eapply Forall_impl; [|exact Hplain]. intros l [Hb [Hn Hc]].
      unfold chorus_stop. rewrite Hn, Hc. simpl. apply andb_false_r. }
  split; [exact E|]. rewrite E. cbn [fst].
  unfold slice, MAX_CHORUS_LINES. rewrite length_map, length_firstn, length_skipn.
  lia.
Qed.

Lemma chorus_window_collects_29_witness :
  _extract_chorus basic_latin forty_lines 0
  = (map (strip basic_latin) (slice forty_lines 1 30), 30)
  /\ length (fst (_extract_chorus basic_latin forty_lines 0)) = 29.
Proof.
  apply (proj2 (chorus_window_collects_29 basic_latin forty_lines 0)).
  - vm_compute. lia.
  - apply Forall_forall. intros l Hl.
    change (slice forty_lines 1 (0 + MAX_CHORUS_LINES))
      with (repeat (lit "la la") 29) in Hl.
    apply repeat_spec in Hl. subst l. vm_compute. auto.
Defined.

(** C7 as stated fails: no chorus ever has exactly 30 lines. *)
Lemma chorus_never_has_30_lines :
  ~ (exists (db : UnicodeDB) (lines : list str) (i : nat),
       length (fst (_extract_chorus db lines i)) = 30).
Proof.
  intros [db [lines [i H]]].
  pose proof (chorus_at_most_29 db lines i) as [K _]. lia.
Qed.

(** ** The musical-density ratio *)

Lemma in_set_literals (db : UnicodeDB) (l : list char) (c : char) :
  in_set db (map Lit l) c = existsb (N.eqb c) l.
Proof.
  unfold in_set. induction l as [|k l IH]; simpl; [reflexivity|].
  rewrite IH. reflexivity.
Qed.

Lemma existsb_eqb_false (c : char) (l : list char) :
  ~ In c l -> existsb (N.eqb c) l = false.
Proof.
  intros H. destruct (existsb (N.eqb c) l) eqn:E; [|reflexivity].
  apply existsb_exists in E. destruct E as [x [Hx Hc]].
  apply N.eqb_eq in Hc. subst x. contradiction.
Qed.

Lemma musical_class_symbol (db : UnicodeDB) (c : char) :
  ~ In c dash_characters ->
  cls_match db false (Set_ MUSICAL_CLASS) c = symbol_class c.
Proof.
  intros H. unfold cls_match.
  change MUSICAL_CLASS
    with (map Lit (lit ":-" ++ [226%N; 8364%N; 8221%N] ++ lit ".|,'smdftlri")).
  rewrite in_set_literals. unfold symbol_class.
  rewrite !existsb_app.
  rewrite (@existsb_eqb_false c [226%N; 8364%N; 8221%N]); [reflexivity|].
  intros K. apply H. right. exact K.
Qed.

Lemma musical_chars_filter (db : UnicodeDB) (line : str) :
  (forall c, In c line -> ~ In c dash_characters) ->
  musical_chars db line = length (filter symbol_class line).
Proof.
  intros H. unfold musical_chars, re_findall.
  rewrite findall_class, length_map. f_equal.
  apply filter_ext_in. intros c Hc. apply musical_class_symbol, H, Hc.
Qed.

(** C3, as amended: for a line that holds no em-dash and none of the
    characters U+00E2, U+20AC and U+201D (which the class of
    [text_cleaner.py] has where the class of [invoices.py] has the
    em-dash), the numerator of the musical-density ratio is the number of
    characters among colon, hyphen, dot, pipe, comma, apostrophe and the
    lower-case letters s, m, d, f, t, l, r, i, and the denominator is the
    number of characters other than the space; a lower-case solfège
    letter adds one to the numerator, its upper-case form adds nothing. *)
Theorem musical_density_counts (db : UnicodeDB) (line : str) :
  (forall c, In c line -> ~ In c dash_characters) ->
  musical_chars db line = length (filter symbol_class line)
  /\ total_chars line = length (filter (fun c => negb (N.eqb c SP)) line)
  /\ (forall c, In c (lit "smdftlri") ->
        musical_chars db (c :: line) = S (musical_chars db line))
  /\ (forall c, In c (lit "SMDFTLRI") ->
        musical_chars db (c :: line) = musical_chars db line).
Proof.
  intros H.
  assert (Hcons : forall c, In c (lit "smdftlriSMDFTLRI") ->
            forall x, In x (c :: line) -> ~ In x dash_characters).
  { intros c Hc x [<-|Hx]; [|apply H, Hx].
    simpl in Hc. unfold ord, dash_characters, EM_DASH in *. simpl in *.
    intros K.
    repeat (destruct Hc as [Hc|Hc];
            [subst c; repeat (destruct K as [K|K]; [discriminate K|]);
             exact K|]).
    exact Hc. }
  split; [apply musical_chars_filter, H|].
  split; [reflexivity|].
  split; intros c Hc.
  - rewrite (musical_chars_filter db (c :: line)),
      (musical_chars_filter db line H).
    + simpl. replace (symbol_class c) with true; [reflexivity|].
      simpl in Hc.
      repeat (destruct Hc as [Hc|Hc]; [subst c; reflexivity|]).
      destruct Hc.
    + apply Hcons. simpl in *. tauto.
  - rewrite (musical_chars_filter db (c :: line)),
      (musical_chars_filter db line H).
    + simpl. replace (symbol_class c) with false; [reflexivity|].
      simpl in Hc.
      repeat (destruct Hc as [Hc|Hc]; [subst c; reflexivity|]).
      destruct Hc.
    + apply Hcons. simpl in *. tauto.
Qed.

Lemma musical_density_counts_witness :
  musical_chars basic_latin (lit "Sol, la: SMD smd")
  = length (filter symbol_class (lit "Sol, la: SMD smd"))
  /\ total_chars (lit "Sol, la: SMD smd")
     = length (filter (fun c => negb (N.eqb c SP)) (lit "Sol, la: SMD smd"))
  /\ (forall c, In c (lit "smdftlri") ->
        musical_chars basic_latin (c :: lit "Sol, la: SMD smd")
        = S (musical_chars basic_latin (lit "Sol, la: SMD smd")))
  /\ (forall c, In c (lit "SMDFTLRI") ->
        musical_chars basic_latin (c :: lit "Sol, la: SMD smd")
        = musical_chars basic_latin (lit "Sol, la: SMD smd")).
Proof.
  apply (musical_density_counts basic_latin (lit "Sol, la: SMD smd")).
  intros c Hc K. vm_compute in Hc, K.
  repeat (destruct Hc as [Hc|Hc];
          [subst c; repeat (destruct K as [K|K]; [discriminate K|]);
           exact K|]).
  exact Hc.
Defined.

(** C3 as stated fails: the upper-case letter S is in the class of the
    specification and is not counted by the program, while s is. *)
Lemma upper_case_letter_not_counted :
  ~ (forall (db : UnicodeDB) (line : str),
       musical_chars db line = length (filter spec_symbol_class line))
  /\ musical_chars basic_latin (lit "S") = 0
  /\ musical_chars basic_latin (lit "s") = 1.
Proof.
  split; [|split; vm_compute; reflexivity].
  intros H. specialize (H basic_latin (lit "S")). vm_compute in H.
  discriminate H.
Qed.

(** The characters left out of C3: the class of [text_cleaner.py] counts
    each of U+00E2, U+20AC and U+201D and does not count the em-dash. *)
Example mis_encoded_dash :
  musical_chars basic_latin [EM_DASH] = 0
  /\ musical_chars basic_latin [226%N] = 1
  /\ musical_chars basic_latin [8364%N] = 1
  /\ musical_chars basic_latin [8221%N] = 1.
Proof. vm_compute. repeat split. Qed.

(** ** Cleaning twice *)

Section CleanerFacts.

Variable db : UnicodeDB.

Lemma sub_from_In (ic : bool) (pat : list atom) :
  forall (s : str) (skip : nat) (prev : option char) (x : char),
    In x (sub_from db ic pat skip prev s) -> In x s.
Proof.
  induction s as [|c s IH]; intros skip prev x; simpl; [auto|].
  destruct skip as [|n].
  - destruct (run db ic pat prev (c :: s)) as [g|].
    + destruct (length (concat g)).
      * intros [<-|H]; [auto|right; eapply IH; eauto].
      * intros H. right. eapply IH; eauto.
    + intros [<-|H]; [auto|right; eapply IH; eauto].
  - intros H. right. eapply IH; eauto.
Qed.

Lemma patterns_In (pats : list (list atom)) :
  forall (line : str) (x : char),
    In x (fold_left (fun cleaned pattern => re_sub db true pattern cleaned)
            pats line) ->
    In x line.
Proof.
  induction pats as [|p pats IH]; intros line x; simpl; [auto|].
  intros H. apply IH in H. unfold re_sub in H.
  eapply sub_from_In; eauto.
Qed.

(** The words of [s.split()] are non-empty runs of non-whitespace
    characters of [s]. *)
Lemma split_ws_words :
  forall s : str,
    Forall (fun w => w <> []
                     /\ forall x, In x w -> isspace db x = false /\ In x s)
      (split_ws db s).
Proof.
  induction s as [|c s IH]; [constructor|].
  assert (Up : Forall (fun w => w <> []
              /\ forall x, In x w -> isspace db x = false /\ In x (c :: s))
            (split_ws db s)).
  { eapply Forall_impl; [|exact IH]. intros w [Hw Hx]. split; auto.
    intros x Hin. destruct (Hx x Hin). split; auto. right. auto. }
  assert (Single : forall x, In x [c] -> isspace db c = false ->
            isspace db x = false /\ In x (c :: s)).
  { intros x [<-|[]] H. split; auto. left. reflexivity. }
  destruct s as [|d s'].
  - simpl. destruct (isspace db c) eqn:Sc; [constructor|].
    constructor; [|constructor]. split; [discriminate|]. auto.
  - change (split_ws db (c :: d :: s'))
      with (if isspace db c then split_ws db (d :: s')
            else if isspace db d then [c] :: split_ws db (d :: s')
            else match split_ws db (d :: s') with
                 | w :: ws => (c :: w) :: ws
                 | [] => [[c]]
                 end).
    destruct (isspace db c) eqn:Sc; [exact Up|].
    destruct (isspace db d) eqn:Sd.
    + constructor; [|exact Up]. split; [discriminate|]. auto.
    + destruct (split_ws db (d :: s')) as [|w ws].
      * constructor; [|constructor]. split; [discriminate|]. auto.
      * inversion Up as [|w0 ws0 [Hw Hx] Hws]. subst.
        constructor; [|exact Hws]. split; [discriminate|].
        intros x [<-|Hin]; [split; auto; left; reflexivity|].
        apply Hx, Hin.
Qed.

Lemma last_In (l : str) (d : char) : l <> [] -> In (last l d) l.
Proof.
  intros H. destruct (exists_last H) as [l' [x ->]].
  rewrite last_last. apply in_or_app. right. left. reflexivity.
Qed.

Lemma word_stored (w : str) :
  w <> [] -> (forall x, In x w -> isspace db x = false) ->
  stored_line db w.
Proof.
  intros Hne Hall. split; [exact Hne|].
  destruct w as [|c t]; [congruence|]. unfold no_outer_space.
  rewrite (Hall c) by (left; reflexivity).
  rewrite (Hall (last (c :: t) c)) by (apply last_In; discriminate).
  reflexivity.
Qed.

Lemma join_In (sep : str) (ls : list str) (x : char) :
  In x (join sep ls) -> In x sep \/ exists l, In l ls /\ In x l.
Proof.
  induction ls as [|p ls IH]; [intros []|].
  destruct ls as [|q r].
  - simpl. intros H. right. exists p. auto.
  - change (join sep (p :: q :: r)) with (p ++ sep ++ join sep (q :: r)).
    intros H. apply in_app_or in H. destruct H as [H|H].
    + right. exists p. split; [left; reflexivity|exact H].
    + apply in_app_or in H. destruct H as [H|H]; [left; exact H|].
      destruct (IH H) as [K|[l [Hl Hx]]]; [left; exact K|].
      right. exists l. split; [right; exact Hl|exact Hx].
Qed.

(** A non-empty result of [_apply_pattern_cleaning] is trimmed and made
    of spaces and characters of the line. *)
Lemma apply_pattern_cleaning_stored (line : str) :
  _apply_pattern_cleaning db line <> [] ->
  stored_line db (_apply_pattern_cleaning db line)
  /\ forall x, In x (_apply_pattern_cleaning db line) -> x = SP \/ In x line.
Proof.
  unfold _apply_pattern_cleaning.
  set (cleaned := fold_left _ MUSICAL_PATTERNS line).
  assert (Hc : forall x, In x cleaned -> In x line)
    by (intros x; apply patterns_In).
  pose proof (split_ws_words cleaned) as Hw.
  intros Hne. split.
  - apply join_stored.
    + intros K. rewrite K in Hne. apply Hne. reflexivity.
    + eapply Forall_impl; [|exact Hw]. intros w [Hw1 Hw2].
      apply word_stored; auto. intros x Hx. apply (Hw2 x Hx).
  - intros x Hx. apply join_In in Hx. destruct Hx as [[<-|[]]|[w [Hin Hx]]].
    + left. reflexivity.
    + right. rewrite Forall_forall in Hw. apply Hc, (Hw w Hin), Hx.
Qed.

Lemma valid_content_nonempty (l : str) :
  _has_valid_content db l = true -> l <> [].
Proof.
  intros H K. subst l. unfold _has_valid_content in H. simpl in H.
  discriminate.
Qed.

Lemma cleaned_lines_stored (lines : list str) :
  Forall line_feed_free lines ->
  Forall (fun l => stored_line db l /\ line_feed_free l
                   /\ _has_valid_content db l = true)
    (cleaned_lines db lines).
Proof.
  induction lines as [|line rest IH]; intros H; [constructor|].
  inversion H as [|x xs Hl Hrest]. subst. specialize (IH Hrest). simpl.
  destruct (is_empty (strip db line)); [exact IH|].
  destruct (_is_musical_notation db (strip db line)); [exact IH|].
  destruct (_has_valid_content db (_apply_pattern_cleaning db (strip db line)))
    eqn:V; [|exact IH].
  constructor; [|exact IH].
  destruct (apply_pattern_cleaning_stored (strip db line)
              (valid_content_nonempty _ V)) as [Hs Hx].
  split; [exact Hs|]. split; [|exact V].
  intros K. destruct (Hx LF K) as [E|E]; [discriminate E|].
  apply (strip_line_feed_free db _ Hl E).
Qed.

Lemma split_on_piece (sep : char) (p rest : str) :
  ~ In sep p ->
  split_on sep (p ++ sep :: rest) = p :: split_on sep rest.
Proof.
  induction p as [|c p IH]; intros H; simpl.
  - rewrite N.eqb_refl. reflexivity.
  - replace (N.eqb c sep) with false.
    + rewrite IH; [reflexivity|]. intros K. apply H. right. exact K.
    + symmetry. apply N.eqb_neq. intros ->. apply H. left. reflexivity.
Qed.

Lemma split_on_whole (sep : char) (p : str) :
  ~ In sep p -> split_on sep p = [p].
Proof.
  induction p as [|c p IH]; intros H; simpl; [reflexivity|].
  replace (N.eqb c sep) with false.
  - rewrite IH; [reflexivity|]. intros K. apply H. right. exact K.
  - symmetry. apply N.eqb_neq. intros ->. apply H. left. reflexivity.
Qed.

Lemma split_on_join (sep : char) (ls : list str) :
  ls <> [] -> Forall (fun l => ~ In sep l) ls ->
  split_on sep (join [sep] ls) = ls.
Proof.
  induction ls as [|p ls IH]; intros Hne H; [congruence|].
  inversion H as [|x xs Hp Hls]. subst.
  destruct ls as [|q r]; [apply split_on_whole, Hp|].
  change (join [sep] (p :: q :: r)) with (p ++ sep :: join [sep] (q :: r)).
  rewrite split_on_piece by exact Hp. f_equal.
  apply IH; [discriminate|exact Hls].
Qed.

Lemma cleaned_lines_fixed (ls : list str) :
  Forall (fun l => (stored_line db l /\ _has_valid_content db l = true)
                   /\ _is_musical_notation db l = false
                   /\ _apply_pattern_cleaning db l = l) ls ->
  cleaned_lines db ls = ls.
Proof.
  induction ls as [|l ls IH]; intros H; [reflexivity|].
  inversion H as [|x xs [[[Hne Hno] Hv] [Hm Hp]] Hrest]. subst. simpl.
  rewrite (strip_fixed db _ Hno).
  destruct l as [|c t]; [congruence|]. cbn [is_empty].
  rewrite Hm, Hp, Hv. f_equal. apply IH, Hrest.
Qed.

End CleanerFacts.

(** C4, as amended: cleaning the output of [clean_musical_notation]
    again returns it unchanged whenever no line of that output is
    notation-dense and pattern substitution leaves each of them as it
    is. *)
Theorem clean_twice_on_stable_output (db : UnicodeDB) (text : str) :
  Forall (fun l => _is_musical_notation db l = false
                   /\ _apply_pattern_cleaning db l = l)
    (cleaned_lines db (split_on LF text)) ->
  clean_musical_notation db (clean_musical_notation db text)
  = clean_musical_notation db text.
Proof.
  intros H. unfold clean_musical_notation.
  set (ls := cleaned_lines db (split_on LF text)) in *.
  pose proof (cleaned_lines_stored db _ (split_on_line_feed_free text)) as Hs.
  fold ls in Hs.
  destruct ls as [|p r] eqn:E; [reflexivity|].
  rewrite split_on_join.
  - f_equal. apply cleaned_lines_fixed.
    apply Forall_forall. intros l Hl.
    rewrite Forall_forall in H, Hs.
    destruct (Hs l Hl) as [Hst [_ Hv]]. destruct (H l Hl) as [Hm Hp].
    auto.
  - discriminate.
  - eapply Forall_impl; [|exact Hs]. intros l [_ [Hlf _]]. exact Hlf.
Qed.

Lemma clean_twice_on_stable_output_witness :
  clean_musical_notation basic_latin
    (clean_musical_notation basic_latin stable_text)
  = clean_musical_notation basic_latin stable_text.
Proof.
  apply (clean_twice_on_stable_output basic_latin stable_text).
  apply Forall_forall. intros l Hl. vm_compute in Hl.
  destruct Hl as [<-|[<-|[]]]; split; vm_compute; reflexivity.
Defined.

(** C4 as stated fails: cleaning "SSS:x smd" gives "x smd" (the second
    pattern removes "SSS:"), and cleaning "x smd" gives the empty string
    (3 of its 4 non-space characters are in the class). *)
Lemma clean_not_idempotent :
  ~ (forall (db : UnicodeDB) (text : str),
       clean_musical_notation db (clean_musical_notation db text)
       = clean_musical_notation db text)
  /\ clean_musical_notation basic_latin unstable_text = lit "x smd"
  /\ clean_musical_notation basic_latin (lit "x smd") = [].
Proof.
  split; [|split; vm_compute; reflexivity].
  intros H. specialize (H basic_latin unstable_text). vm_compute in H.
  discriminate H.
Qed.

(** * Further properties *)

(** ** Invariants of the songs under construction *)

Section SongInvariants.

Variable db : UnicodeDB.

Lemma nth_nonblank_In (lines : list str) (i : nat) :
  strip db (nth i lines []) <> [] -> In (nth i lines []) lines.
Proof.
  intros H. destruct (Nat.lt_ge_cases i (length lines)) as [L|L].
  - apply nth_In, L.
  - rewrite nth_overflow in H by exact L. exfalso. apply H. reflexivity.
Qed.

Lemma numbered_match_nonblank (line : str) (m : str * str) :
  numbered_match db line = Some m -> line <> [].
Proof.
  intros H K. subst line. vm_compute in H. discriminate H.
Qed.

Lemma In_skipn {A : Type} (n : nat) (l : list A) (x : A) :
  In x (skipn n l) -> In x l.
Proof.
  intros H. rewrite <- (firstn_skipn n l). apply in_or_app. right. exact H.
Qed.

(** Any property of songs that the four updates of the loop keep is
    kept by [step]. *)
Lemma step_state_all (Q : song -> Prop) (lines : list str) :
  (forall i m,
     song_header db lines i (strip db (nth i lines [])) = Some m ->
     Q (_create_new_song db m)) ->
  (forall s i,
     Q s -> strip db (nth i lines []) <> [] ->
     Q (set_chorus s (fst (_extract_chorus db lines i)))) ->
  (forall s i m,
     Q s -> numbered_match db (strip db (nth i lines [])) = Some m ->
     Q (append_verse s (fst (_extract_numbered_verse db lines i m)))) ->
  (forall s i,
     Q s -> strip db (nth i lines []) <> [] ->
     Q (append_verse s (fst (_extract_unnumbered_verse db lines i s)))) ->
  forall st, state_all Q st -> state_all Q (step db lines st).
Proof.
  intros Hnew Hch Hnv Huv st [Hs Hc]. unfold step.
  set (i := cursor st). set (line := strip db (nth i lines [])).
  destruct (is_empty line) eqn:E; [split; assumption|].
  assert (Hne : line <> []) by (intros K; rewrite K in E; discriminate).
  destruct (song_header db lines i line) as [m|] eqn:H1.
  { split; simpl.
    - unfold close_song. destruct (current_song st) as [cur|]; auto.
      apply Forall_app. split; auto.
    - intros cur K. inversion K. apply (Hnew i). exact H1. }
  destruct (_is_main_title db line (st_title st) (current_song st));
    [split; assumption|].
  destruct (if _is_chorus_line db line then current_song st else None)
    as [cur|] eqn:H3.
  { assert (Hcur : current_song st = Some cur)
      by (destruct (_is_chorus_line db line); [exact H3|discriminate]).
    pose proof (Hch cur i (Hc _ Hcur) Hne) as K.
    destruct (_extract_chorus db lines i) as [chorus_lines next_i].
    split; simpl; auto. intros c K'. inversion K'. subst c. exact K. }
  destruct (numbered_match db line) as [m|] eqn:H4;
    destruct (current_song st) as [cur|] eqn:H5;
    try (split; [assumption|]; simpl; rewrite H5; exact Hc).
  - pose proof (Hnv cur i m (Hc _ eq_refl) H4) as K.
    destruct (_extract_numbered_verse db lines i m) as [vd next_i].
    split; simpl; auto. intros c K'. inversion K'. subst c. exact K.
  - destruct (_is_potential_verse db line);
      [|split; [assumption|]; simpl; rewrite H5; exact Hc].
    pose proof (Huv cur i (Hc _ eq_refl) Hne) as K.
    destruct (_extract_unnumbered_verse db lines i cur) as [vd next_i].
    split; simpl; auto. intros c K'. inversion K'. subst c. exact K.
Qed.

(** ... and then holds of every song of the document. *)
Lemma detect_structure_all (Q : song -> Prop) (text : str) :
  (forall st, state_all Q st -> state_all Q (step db (split_on LF text) st)) ->
  exists doc,
    detect_structure db text = Some doc /\ Forall Q (songs doc).
Proof.
  intros Hstep.
  destruct (detect_structure_inv db (state_all Q) text) as [st [_ [H [Hs Hc]]]].
  - exact Hstep.
  - split; [constructor|]. intros cur K. discriminate.
  - exists (finish db (split_on LF text) st). split; [exact H|].
    unfold finish, _filter_valid_songs. simpl.
    apply Forall_forall. intros s Hin. apply filter_In in Hin.
    destruct Hin as [Hin _].
    unfold close_song in Hin. destruct (current_song st) as [cur|].
    + apply in_app_or in Hin. destruct Hin as [Hin|[<-|[]]].
      * rewrite Forall_forall in Hs. apply Hs, Hin.
      * apply Hc. reflexivity.
    + rewrite Forall_forall in Hs. apply Hs, Hin.
Qed.

(** What the three collection loops add to their accumulator are trimmed
    non-blank lines of [rest]. *)
Lemma chorus_loop_Forall (P : str -> Prop) (limit : nat) :
  forall (rest : list str) (j : nat) (acc : list str),
    Forall P acc ->
    (forall l, In l rest -> strip db l <> [] -> P (strip db l)) ->
    Forall P (fst (chorus_loop db limit rest j acc)).
Proof.
  induction rest as [|l rest IH]; intros j acc Ha Hr; simpl; [exact Ha|].
  assert (Hr' : forall x, In x rest -> strip db x <> [] -> P (strip db x))
    by (intros x Hx; apply Hr; right; exact Hx).
  destruct (j <? limit); [|exact Ha].
  destruct (is_empty (strip db l)) eqn:E; [apply IH; assumption|].
  destruct (leading_number db (strip db l)
            && (3 <? length (split_ws db (strip db l)))); [exact Ha|].
  destruct (_is_chorus_line db (strip db l)); [exact Ha|].
  apply IH; [|exact Hr']. apply Forall_app. split; [exact Ha|].
  constructor; [|constructor]. apply Hr; [left; reflexivity|].
  intros K. rewrite K in E. discriminate.
Qed.

Lemma numbered_loop_Forall (P : str -> Prop) :
  forall (rest : list str) (j : nat) (acc : list str),
    Forall P acc ->
    (forall l, In l rest -> strip db l <> [] -> P (strip db l)) ->
    Forall P (fst (numbered_loop db rest j acc)).
Proof.
  induction rest as [|l rest IH]; intros j acc Ha Hr; simpl; [exact Ha|].
  assert (Hr' : forall x, In x rest -> strip db x <> [] -> P (strip db x))
    by (intros x Hx; apply Hr; right; exact Hx).
  destruct (length acc <? MAX_VERSE_LINES); [|exact Ha].
  destruct (is_empty (strip db l)) eqn:E; [apply IH; assumption|].
  destruct (leading_number db (strip db l)); [exact Ha|].
  destruct (_is_chorus_line db (strip db l)); [exact Ha|].
  apply IH; [|exact Hr']. apply Forall_app. split; [exact Ha|].
  constructor; [|constructor]. apply Hr; [left; reflexivity|].
  intros K. rewrite K in E. discriminate.
Qed.

Lemma unnumbered_loop_Forall (P : str -> Prop) :
  forall (rest : list str) (j : nat) (acc : list str),
    Forall P acc ->
    (forall l, In l rest -> strip db l <> [] -> P (strip db l)) ->
    Forall P (fst (unnumbered_loop db rest j acc)).
Proof.
  induction rest as [|l rest IH]; intros j acc Ha Hr; simpl; [exact Ha|].
  assert (Hr' : forall x, In x rest -> strip db x <> [] -> P (strip db x))
    by (intros x Hx; apply Hr; right; exact Hx).
  destruct (length acc <? 4); [|exact Ha].
  destruct (is_empty (strip db l)) eqn:E; [apply IH; assumption|].
  destruct (leading_number db (strip db l)
            && (3 <? length (split_ws db (strip db l)))); [exact Ha|].
  destruct (_is_chorus_line db (strip db l)); [exact Ha|].
  apply IH; [|exact Hr']. apply Forall_app. split; [exact Ha|].
  constructor; [|constructor]. apply Hr; [left; reflexivity|].
  intros K. rewrite K in E. discriminate.
Qed.

(** A property of lines that holds of the trimmed non-blank lines of the
    text and of the texts captured on them holds of every stored verse
    line and chorus line. *)
Lemma step_song_lines (P : str -> Prop) (lines : list str) :
  (forall l, In l lines -> strip db l <> [] -> P (strip db l)) ->
  (forall l d t,
     In l lines -> numbered_match db (strip db l) = Some (d, t) -> P t) ->
  forall st,
    state_all (song_lines P) st ->
    state_all (song_lines P) (step db lines st).
Proof.
  intros H1 H2. apply step_state_all.
  - intros i m _. split; constructor.
  - intros s i [Hv _] _. split; [exact Hv|]. simpl.
    unfold _extract_chorus. apply chorus_loop_Forall; [constructor|].
    intros l Hl. apply H1. apply (In_skipn _ _ _ Hl).
  - intros s i [d t] [Hv Hc] Hm.
    destruct (fst (_extract_numbered_verse db lines i (d, t))) as [v|] eqn:E;
      [|split; assumption].
    split; [|exact Hc]. simpl. apply Forall_app. split; [exact Hv|].
    constructor; [|constructor].
    unfold _extract_numbered_verse in E. cbn [fst snd] in E.
    destruct (length (split_ws db t) <=? 15); [|discriminate].
    pose proof (numbered_loop_Forall P (skipn (S i) lines) (S i) [t]) as K.
    destruct (numbered_loop db (skipn (S i) lines) (S i) [t])
      as [collected j].
    destruct (10 <? length (strip db (join [SP] collected))); [|discriminate].
    simpl in E. inversion E. simpl. apply K.
    + constructor; [|constructor].
      apply (H2 (nth i lines []) d t); [|exact Hm].
      apply nth_nonblank_In. apply (numbered_match_nonblank _ _ Hm).
    + intros l Hl. apply H1. apply (In_skipn _ _ _ Hl).
  - intros s i [Hv Hc] Hne.
    destruct (fst (_extract_unnumbered_verse db lines i s)) as [v|] eqn:E;
      [|split; assumption].
    split; [|exact Hc]. simpl. apply Forall_app. split; [exact Hv|].
    constructor; [|constructor].
    unfold _extract_unnumbered_verse in E.
    pose proof (unnumbered_loop_Forall P (skipn (S i) lines) (S i)
                  [strip db (nth i lines [])]) as K.
    destruct (unnumbered_loop db (skipn (S i) lines) (S i)
                [strip db (nth i lines [])]) as [collected j].
    destruct ((length (verses s) =? 0)
              || (15 <? length (join [SP] collected))); [|discriminate].
    simpl in E. inversion E. simpl. apply K.
    + constructor; [|constructor].
      apply H1; [apply nth_nonblank_In|]; exact Hne.
    + intros l Hl. apply H1. apply (In_skipn _ _ _ Hl).
Qed.

End SongInvariants.

(** ** What the document holds *)

Section DocumentFacts.

Variable db : UnicodeDB.

Lemma append_verse_chorus (s : song) (vd : option verse) :
  chorus (append_verse s vd) = chorus s.
Proof. destruct vd; reflexivity. Qed.

Lemma append_verse_header (s : song) (vd : option verse) :
  song_number (append_verse s vd) = song_number s
  /\ song_title (append_verse s vd) = song_title s.
Proof. destruct vd; split; reflexivity. Qed.

(** Group 1 of the numbered pattern is a non-empty run of digits. *)
Lemma numbered_match_digits (line d t : str) :
  numbered_match db line = Some (d, t) ->
  d <> [] /\ forallb (isdecimal db) d = true.
Proof.
  unfold numbered_match, re_match, NUMBERED_LINE, DIGITS. simpl run.
  intros H.
  destruct (rep (cls_match db false (Set_ [Cat_digit]))
    (fun prev s => rep (cls_match db false (Set_ [Cat_space]))
       (fun prev0 s0 => rep (cls_match db false Dot)
          (fun _ _ => Some []) 1 prev0 s0) 1 prev s) 1 None line)
    as [r1|] eqn:E1; [|discriminate].
  destruct (rep_inv _ _ _ _ _ _ E1)
    as [g [rest1 [gs [prev1 [R1 [S1 [F1 [L1 [K1 _]]]]]]]]].
  destruct (rep_inv _ _ _ _ _ _ K1)
    as [w [rest2 [gs2 [prev2 [R2 [S2 [_ [Lw [K2 P2]]]]]]]]].
  rewrite rep_always in K2.
  destruct (1 <=? length (take_while (cls_match db false Dot) rest2));
    [|discriminate].
  inversion K2. subst gs2 gs r1. simpl in H. inversion H. subst g.
  split.
  - intros K. subst d. simpl in L1. lia.
  - rewrite forallb_forall in *. intros x Hx. specialize (F1 x Hx).
    simpl in F1. rewrite orb_false_r in F1. exact F1.
Qed.

Lemma song_header_inv (lines : list str) (i : nat) (line : str)
    (m : str * str) :
  song_header db lines i line = Some m ->
  numbered_match db line = Some m /\ 3 < length (snd m).
Proof.
  unfold song_header. destruct (numbered_match db line) as [m'|];
    [|discriminate].
  destruct (3 <? length (snd m')) eqn:L; simpl; [|discriminate].
  destruct (_is_song_title db lines i); [|discriminate].
  intros H. inversion H. subst m'. split; [reflexivity|].
  apply Nat.ltb_lt. exact L.
Qed.

Lemma firstn_S_nth (lines : list str) (i : nat) :
  i < length lines ->
  firstn (S i) lines = firstn i lines ++ [nth i lines []].
Proof.
  revert i. induction lines as [|l lines IH]; intros i Hi; simpl in Hi.
  - lia.
  - destruct i as [|i]; [reflexivity|].
    change (firstn (S (S i)) (l :: lines)) with (l :: firstn (S i) lines).
    rewrite IH by lia. reflexivity.
Qed.

Lemma count_firstn_le (f : str -> bool) (lines : list str) (a b : nat) :
  a <= b ->
  length (filter f (firstn a lines)) <= length (filter f (firstn b lines)).
Proof.
  revert a b. induction lines as [|l lines IH]; intros a b Hab.
  - rewrite !firstn_nil. simpl. lia.
  - destruct a as [|a]; [simpl; lia|].
    destruct b as [|b]; [lia|]. simpl.
    specialize (IH a b ltac:(lia)). destruct (f l); simpl; lia.
Qed.

(** The two shapes of an iteration: it opens a song on a numbered line
    and moves to the next line, or it leaves the list of closed songs and
    the presence of an open song as they are. *)
Lemma step_shape (lines : list str) (st : state) :
  (st_songs (step db lines st) = close_song (st_songs st) (current_song st)
   /\ is_some (current_song (step db lines st)) = true
   /\ cursor (step db lines st) = S (cursor st)
   /\ cursor st < length lines
   /\ numbered_line db (nth (cursor st) lines []) = true)
  \/ (st_songs (step db lines st) = st_songs st
      /\ is_some (current_song (step db lines st))
         = is_some (current_song st)).
Proof.
  unfold step.
  destruct (is_empty (strip db (nth (cursor st) lines []))) eqn:E;
    [right; split; reflexivity|].
  destruct (song_header db lines (cursor st) _) as [m|] eqn:H1.
  { left. simpl. repeat split.
    - destruct (Nat.lt_ge_cases (cursor st) (length lines)) as [L|L]; auto.
      rewrite nth_overflow in E by exact L. discriminate E.
    - apply song_header_inv in H1. destruct H1 as [H1 _].
      unfold numbered_line. rewrite H1. reflexivity. }
  right.
  destruct (_is_main_title db _ _ _); [split; reflexivity|].
  destruct (if _is_chorus_line db _ then current_song st else None)
    as [cur|] eqn:H3.
  { destruct (_is_chorus_line db _); [|discriminate]. rewrite H3.
    destruct (_extract_chorus db lines (cursor st)). split; reflexivity. }
  destruct (numbered_match db _) as [m|];
    destruct (current_song st) as [cur|] eqn:H5;
    try (split; simpl; rewrite ?H5; reflexivity).
  - destruct (_extract_numbered_verse db lines (cursor st) m).
    split; reflexivity.
  - destruct (_is_potential_verse db _);
      [|split; simpl; rewrite ?H5; reflexivity].
    destruct (_extract_unnumbered_verse db lines (cursor st) cur).
    split; reflexivity.
Qed.

End DocumentFacts.

(** X1: in the final document every chorus has at most 29 lines, each
    of them non-empty and without leading or trailing whitespace. *)
Theorem final_chorus_well_formed (db : UnicodeDB) (text : str) :
  exists doc,
    detect_structure db text = Some doc
    /\ Forall (fun s =>
         length (chorus s) <= 29
         /\ Forall (fun l => l <> [] /\ no_outer_space db l = true)
              (chorus s))
         (songs doc).
Proof.
  apply detect_structure_all. apply step_state_all.
  - intros i m _. simpl. split; [lia|constructor].
  - intros s i _ _. simpl. split; [apply chorus_at_most_29|].
    unfold _extract_chorus. apply chorus_loop_Forall; [constructor|].
    intros l _ Hne. split; [exact Hne|apply strip_no_outer_space].
  - intros s i m H _. rewrite append_verse_chorus. exact H.
  - intros s i H _. rewrite append_verse_chorus. exact H.
Qed.

(** X2: every verse line and every chorus line of the final document is
    a trimmed line of the input text, or the text captured after the
    number of a numbered line of the input. *)
Theorem final_lines_from_text (db : UnicodeDB) (text : str) :
  exists doc,
    detect_structure db text = Some doc
    /\ Forall (song_lines (from_text db (split_on LF text))) (songs doc).
Proof.
  apply detect_structure_all. apply step_song_lines.
  - intros l Hl _. exists l. auto.
  - intros l d t Hl Hm. exists l. split; [exact Hl|]. right. exists d.
    exact Hm.
Qed.

(** X3: every song of the final document has a number that is a
    non-empty string of decimal digits and a title of more than 3
    characters without leading or trailing whitespace. *)
Theorem final_song_headers (db : UnicodeDB) (text : str) :
  exists doc,
    detect_structure db text = Some doc
    /\ Forall (header_ok db) (songs doc).
Proof.
  apply detect_structure_all. apply step_state_all.
  - intros i [d t] H. apply song_header_inv in H. destruct H as [Hm Hl].
    simpl in Hl.
    assert (Hlf : line_feed_free (strip db (nth i (split_on LF text) []))).
    { apply strip_line_feed_free, nth_line_feed_free,
        split_on_line_feed_free. }
    destruct (numbered_match_inv db _ _ _ Hm Hlf (strip_no_outer_space db _))
      as [_ [Hno _]].
    destruct (numbered_match_digits db _ _ _ Hm) as [Hd Hf].
    unfold header_ok, _create_new_song. simpl.
    rewrite (strip_fixed db _ Hno). auto.
  - intros s i H _. exact H.
  - intros s i m H _. unfold header_ok in *.
    destruct (append_verse_header s (fst (_extract_numbered_verse db
                (split_on LF text) i m))) as [-> ->]. exact H.
  - intros s i H _. unfold header_ok in *.
    destruct (append_verse_header s (fst (_extract_unnumbered_verse db
                (split_on LF text) i s))) as [-> ->]. exact H.
Qed.

Lemma title_line_nonempty (db : UnicodeDB) (line : str) :
  title_line db line = true -> line <> [].
Proof. intros H K. subst line. discriminate H. Qed.

Lemma song_header_unnumbered (db : UnicodeDB) (lines : list str) (i : nat)
    (line : str) :
  numbered_match db line = None -> song_header db lines i line = None.
Proof. unfold song_header. intros ->. reflexivity. Qed.

(** X4: a text none of whose lines is a numbered line gives a document
    without songs, and its title is the first trimmed line that is all
    upper case and longer than 10 characters (empty when there is
    none). *)
Theorem unnumbered_text_has_no_songs (db : UnicodeDB) (text : str) :
  Forall (fun l => numbered_line db l = false) (split_on LF text) ->
  exists doc,
    detect_structure db text = Some doc
    /\ songs doc = []
    /\ title doc
       = hd [] (filter (title_line db) (map (strip db) (split_on LF text))).
Proof.
  intros Hnone. unfold detect_structure.
  set (lines := split_on LF text) in *.
  assert (Hnth : forall i, numbered_match db (strip db (nth i lines [])) = None).
  { intros i. destruct (Nat.lt_ge_cases i (length lines)) as [L|L].
    - rewrite Forall_forall in Hnone.
      specialize (Hnone _ (nth_In lines [] L)). unfold numbered_line in Hnone.
      destruct (numbered_match db (strip db (nth i lines []))); auto.
      discriminate.
    - rewrite nth_overflow by exact L. reflexivity. }
  set (Inv := fun st : state =>
    current_song st = None /\ st_songs st = []
    /\ st_title st
       = hd [] (filter (title_line db)
                  (map (strip db) (firstn (cursor st) lines)))).
  assert (Hstep : forall st, Inv st -> Inv (step db lines st)).
  { intros st [Hc [Hs Ht]].
    set (line := strip db (nth (cursor st) lines [])).
    set (seen := filter (title_line db)
                   (map (strip db) (firstn (cursor st) lines))) in *.
    assert (Hfirst : filter (title_line db)
                       (map (strip db) (firstn (S (cursor st)) lines))
                     = seen ++ (if (cursor st <? length lines)
                                   && title_line db line
                                then [line] else [])).
    { unfold seen. destruct (cursor st <? length lines) eqn:L.
      - apply Nat.ltb_lt in L. rewrite firstn_S_nth by exact L.
        rewrite map_app, filter_app. simpl. fold line.
        destruct (title_line db line); reflexivity.
      - apply Nat.ltb_ge in L. rewrite !firstn_all2 by lia.
        rewrite app_nil_r. reflexivity. }
    assert (Hseen : forall x, In x seen -> x <> []).
    { intros x Hx. apply filter_In in Hx. destruct Hx as [_ Hx].
      apply (title_line_nonempty db _ Hx). }
    unfold step, Inv. fold line.
    destruct (is_empty line) eqn:E.
    { cbn [advance cursor st_title st_songs current_song].
      repeat split; auto. rewrite Hfirst.
      destruct line; [|discriminate]. rewrite andb_false_r, app_nil_r.
      exact Ht. }
    assert (Hin : (cursor st <? length lines) = true).
    { apply Nat.ltb_lt.
      destruct (Nat.lt_ge_cases (cursor st) (length lines)) as [L|L]; auto.
      unfold line in E. rewrite nth_overflow in E by exact L. discriminate E. }
    rewrite Hin in Hfirst. cbn [andb] in Hfirst.
    rewrite (song_header_unnumbered db lines (cursor st) line
               (Hnth (cursor st))).
    rewrite Hc.
    replace (numbered_match db line) with (@None (str * str))
      by (symmetry; apply Hnth).
    unfold _is_main_title. cbn [is_some negb]. rewrite andb_true_r.
    fold (title_line db line).
    assert (Hrest :
      (if _is_chorus_line db line then @None song else None) = None)
      by (destruct (_is_chorus_line db line); reflexivity).
    destruct (title_line db line) eqn:T; cbn [andb].
    - destruct (st_title st) as [|c t] eqn:Et; cbn [is_empty].
      + cbn [cursor st_title st_songs current_song].
        repeat split; auto. rewrite Hfirst.
        destruct seen as [|x xs]; [reflexivity|].
        simpl in Ht. subst x. exfalso.
        apply (Hseen [] (or_introl eq_refl)). reflexivity.
      + rewrite Hrest. cbn [advance cursor st_title st_songs current_song].
        repeat split; auto. rewrite Et, Hfirst.
        destruct seen; [discriminate Ht|exact Ht].
    - rewrite Hrest. cbn [advance cursor st_title st_songs current_song].
      repeat split; auto. rewrite Hfirst, app_nil_r. exact Ht. }
  destruct (main_loop_ends db Inv lines Hstep (length lines) initial_state)
    as [st [Hloop [[Hc [Hs Ht]] Hend]]].
  { simpl. lia. }
  { unfold Inv. simpl. auto. }
  rewrite Hloop. simpl. eexists. split; [reflexivity|].
  unfold finish. simpl. rewrite Hc, Hs. split; [reflexivity|].
  rewrite Ht, firstn_all2 by exact Hend. reflexivity.
Qed.

Lemma unnumbered_text_witness :
  exists doc,
    detect_structure basic_latin untitled_text = Some doc
    /\ songs doc = []
    /\ title doc
       = hd [] (filter (title_line basic_latin)
                  (map (strip basic_latin) (split_on LF untitled_text))).
Proof.
  apply (unnumbered_text_has_no_songs basic_latin untitled_text).
  vm_compute. repeat constructor.
Defined.

(** On [untitled_text] that title is the second line, trimmed. *)
Example untitled_text_title :
  option_map title (detect_structure basic_latin untitled_text)
  = Some (lit "SONGS OF PRAISE").
Proof. vm_compute. reflexivity. Qed.

(** The title changes in one case only: no title yet, no song open, and
    the current line is a title line. *)
Lemma step_title (db : UnicodeDB) (lines : list str) (st : state) :
  st_title (step db lines st) = st_title st
  \/ (st_title (step db lines st) = strip db (nth (cursor st) lines [])
      /\ title_line db (strip db (nth (cursor st) lines [])) = true
      /\ st_title st = [] /\ current_song st = None).
Proof.
  unfold step.
  destruct (is_empty (strip db (nth (cursor st) lines []))); [left; reflexivity|].
  destruct (song_header db lines (cursor st) _); [left; reflexivity|].
  destruct (_is_main_title db _ _ _) eqn:M.
  { right. unfold _is_main_title in M.
    apply andb_true_iff in M. destruct M as [M Hc].
    apply andb_true_iff in M. destruct M as [M Ht].
    simpl. repeat split.
    - exact M.
    - destruct (st_title st); [reflexivity|discriminate].
    - destruct (current_song st); [discriminate|reflexivity]. }
  left.
  destruct (if _is_chorus_line db _ then current_song st else None).
  { destruct (_extract_chorus db lines (cursor st)). reflexivity. }
  destruct (numbered_match db _) as [m|];
    destruct (current_song st) as [cur|]; try reflexivity.
  - destruct (_extract_numbered_verse db lines (cursor st) m). reflexivity.
  - destruct (_is_potential_verse db _); [|reflexivity].
    destruct (_extract_unnumbered_verse db lines (cursor st) cur).
    reflexivity.
Qed.

(** X5: the title of the document is empty, or it is a trimmed line of
    the text that is all upper case and longer than 10 characters. *)
Theorem final_title_is_title_line (db : UnicodeDB) (text : str) :
  exists doc,
    detect_structure db text = Some doc
    /\ (title doc = []
        \/ (title_line db (title doc) = true
            /\ exists l, In l (split_on LF text) /\ title doc = strip db l)).
Proof.
  set (Inv := fun st : state =>
    st_title st = []
    \/ (title_line db (st_title st) = true
        /\ exists l, In l (split_on LF text) /\ st_title st = strip db l)).
  destruct (detect_structure_inv db Inv text) as [st [_ [H Hi]]].
  - intros st Hi. unfold Inv.
    destruct (step_title db (split_on LF text) st) as [->|[E [T _]]];
      [exact Hi|].
    right. rewrite E. split; [exact T|].
    exists (nth (cursor st) (split_on LF text) []). split; [|reflexivity].
    apply nth_nonblank_In with (db := db).
    apply (title_line_nonempty db _ T).
  - left. reflexivity.
  - exists (finish db (split_on LF text) st). split; [exact H|exact Hi].
Qed.

(** X6: the document never has more songs than the text has numbered
    lines. *)
Theorem songs_bounded_by_numbered_lines (db : UnicodeDB) (text : str) :
  exists doc,
    detect_structure db text = Some doc
    /\ length (songs doc)
       <= length (filter (numbered_line db) (split_on LF text)).
Proof.
  unfold detect_structure. set (lines := split_on LF text).
  set (open := fun st : state =>
    if is_some (current_song st) then 1 else 0).
  set (Inv := fun st : state =>
    length (st_songs st) + open st
    <= length (filter (numbered_line db) (firstn (cursor st) lines))).
  assert (Hstep : forall st, Inv st -> Inv (step db lines st)).
  { intros st Hi. unfold Inv, open in *.
    pose proof (step_cursor db lines st) as [Hc _].
    destruct (step_shape db lines st) as [[Hs [Ho [Hn [Hl Hnum]]]]|[Hs Ho]].
    - rewrite Hs, Ho, Hn, (firstn_S_nth lines (cursor st) Hl), filter_app.
      simpl. rewrite Hnum, length_app. simpl.
      unfold close_song. destruct (current_song st); simpl in *;
        rewrite ?length_app; simpl; lia.
    - rewrite Hs, Ho.
      pose proof (count_firstn_le (numbered_line db) lines
                    (cursor st) (cursor (step db lines st)) ltac:(lia)).
      lia. }
  destruct (main_loop_ends db Inv lines Hstep (length lines) initial_state)
    as [st [Hloop [Hi Hend]]].
  { simpl. lia. }
  { unfold Inv, open. simpl. lia. }
  rewrite Hloop. simpl. eexists. split; [reflexivity|].
  unfold finish, _filter_valid_songs. cbn [songs].
  unfold Inv, open in Hi. rewrite firstn_all2 in Hi by exact Hend.
  eapply Nat.le_trans; [apply filter_length_le|].
  unfold close_song. destruct (current_song st); simpl in Hi;
    rewrite ?length_app; simpl; lia.
Qed.

(** X7: the first of three consecutive leading-number lines is never a
    song title, so it never opens a song. *)
Theorem verse_sequence_is_not_header (db : UnicodeDB) (lines : list str)
    (i : nat) :
  S (S i) < length lines ->
  leading_number db (strip db (nth i lines [])) = true ->
  leading_number db (strip db (nth (S i) lines [])) = true ->
  leading_number db (strip db (nth (S (S i)) lines [])) = true ->
  _is_song_title db lines i = false
  /\ song_header db lines i (strip db (nth i lines [])) = None.
Proof.
  intros Hlen H0 H1 H2.
  assert (T : _is_song_title db lines i = false).
  { unfold _is_song_title.
    replace (S i <? length lines) with true
      by (symmetry; apply Nat.ltb_lt; lia).
    rewrite H1.
    rewrite (skipn_nth_cons lines i) by lia.
    rewrite (skipn_nth_cons lines (S i)) by lia.
    rewrite (skipn_nth_cons lines (S (S i))) by lia.
    cbn [firstn filter]. rewrite H0, H1, H2. reflexivity. }
  split; [exact T|].
  unfold song_header. rewrite T.
  destruct (numbered_match db (strip db (nth i lines []))); [|reflexivity].
  rewrite andb_false_r. reflexivity.
Qed.

Lemma verse_sequence_witness :
  _is_song_title basic_latin verse_block 0 = false
  /\ song_header basic_latin verse_block 0
       (strip basic_latin (nth 0 verse_block [])) = None.
Proof.
  apply (verse_sequence_is_not_header basic_latin verse_block 0).
  - vm_compute. lia.
  - vm_compute. reflexivity.
  - vm_compute. reflexivity.
  - vm_compute. reflexivity.
Defined.

(** ** What cleaning returns *)

Section CleaningFacts.

Variable db : UnicodeDB.

(** X8: the text returned by [clean_musical_notation] is empty, or each
    of its lines is non-empty, free of leading and trailing whitespace,
    longer than 2 characters and holds three ASCII letters in a row: the
    output has no blank line. *)
Theorem clean_output_lines (text : str) :
  clean_musical_notation db text = []
  \/ Forall (fun l => l <> [] /\ no_outer_space db l = true
                      /\ 2 < length l /\ _has_valid_content db l = true)
       (split_on LF (clean_musical_notation db text)).
Proof.
  unfold clean_musical_notation.
  pose proof (cleaned_lines_stored db _ (split_on_line_feed_free text)) as Hs.
  destruct (cleaned_lines db (split_on LF text)) as [|p r] eqn:E;
    [left; reflexivity|right].
  rewrite split_on_join.
  - eapply Forall_impl; [|exact Hs]. intros l [[Hne Hno] [_ Hv]].
    repeat split; auto.
    unfold _has_valid_content in Hv. rewrite (strip_fixed db _ Hno) in Hv.
    destruct (is_empty l || (length l <=? 2)) eqn:B; [discriminate|].
    apply orb_false_iff in B. destruct B as [_ B].
    apply Nat.leb_gt in B. exact B.
  - discriminate.
  - eapply Forall_impl; [|exact Hs]. intros l [_ [Hlf _]]. exact Hlf.
Qed.

Lemma search_none (cl : cls) (n : nat) :
  forall (s : str) (prev : option char),
    (forall c, In c s -> cls_match db false cl c = false) ->
    search_from db false [Rep (S n) cl] prev s = None.
Proof.
  induction s as [|c s IH]; intros prev H; [reflexivity|].
  simpl. rewrite (H c) by (left; reflexivity).
  apply IH. intros x Hx. apply H. right. exact Hx.
Qed.

Lemma musical_class_space :
  cls_match db false (Set_ MUSICAL_CLASS) SP = false.
Proof. reflexivity. Qed.

(** A line of spaces and class characters is dropped by the loop of
    [clean_musical_notation]. *)
Lemma notation_line_dropped (o : str) :
  (forall c, In c o -> c = SP \/ in_set db MUSICAL_CLASS c = true) ->
  o = []
  \/ _is_musical_notation db o = true
  \/ _has_valid_content db (_apply_pattern_cleaning db o) = false.
Proof.
  intros H.
  assert (Hm : musical_chars db o = total_chars o).
  { unfold musical_chars, total_chars, re_findall, remove_char.
    rewrite findall_class, length_map. f_equal.
    apply filter_ext_in. intros c Hc. destruct (H c Hc) as [->|K].
    - reflexivity.
    - change (cls_match db false (Set_ MUSICAL_CLASS) c)
        with (in_set db MUSICAL_CLASS c).
      rewrite K. symmetry. apply negb_true_iff, N.eqb_neq. intros ->.
      pose proof musical_class_space as Z.
      change (cls_match db false (Set_ MUSICAL_CLASS) SP)
        with (in_set db MUSICAL_CLASS SP) in Z. congruence. }
  destruct (total_chars o) as [|t] eqn:T.
  - right. right.
    assert (Hsp : forall c, In c o -> c = SP).
    { intros c Hc. unfold total_chars, remove_char in T.
      destruct (N.eqb c SP) eqn:Ec; [apply N.eqb_eq, Ec|].
      assert (K : In c (filter (fun x => negb (N.eqb x SP)) o))
        by (apply filter_In; split; [exact Hc|rewrite Ec; reflexivity]).
      destruct (filter (fun x => negb (N.eqb x SP)) o);
        [destruct K|discriminate T]. }
    destruct (_apply_pattern_cleaning db o) as [|c l] eqn:E;
      [reflexivity|].
    destruct (apply_pattern_cleaning_stored db o) as [_ Hx];
      [rewrite E; discriminate|].
    rewrite E in Hx. unfold _has_valid_content.
    destruct (is_empty (c :: l) || (length (strip db (c :: l)) <=? 2));
      [reflexivity|].
    unfold re_search, THREE_LETTERS. rewrite search_none; [reflexivity|].
    intros x Hin.
    assert (x = SP) as -> by (destruct (Hx x Hin) as [K|K]; auto).
    reflexivity.
  - right. left. unfold _is_musical_notation. rewrite Hm, T.
    unfold exceeds, MUSICAL_CHAR_THRESHOLD. cbn [fst snd].
    apply andb_true_iff. split; [reflexivity|]. apply Nat.ltb_lt. lia.
Qed.

(** X9: a text whose lines, once trimmed, consist only of characters of
    the musical class and of spaces is cleaned to the empty string. *)
Theorem notation_only_text_is_removed (text : str) :
  Forall (fun l => forall c, In c (strip db l) ->
                      c = SP \/ in_set db MUSICAL_CLASS c = true)
    (split_on LF text) ->
  clean_musical_notation db text = [].
Proof.
  unfold clean_musical_notation. intros H.
  replace (cleaned_lines db (split_on LF text)) with (@nil str);
    [reflexivity|].
  symmetry. induction (split_on LF text) as [|l ls IH]; [reflexivity|].
  inversion H as [|x xs Hl Hls]. subst. simpl.
  destruct (notation_line_dropped (strip db l) Hl) as [E|[E|E]].
  - rewrite E. simpl. apply IH, Hls.
  - rewrite E. destruct (is_empty (strip db l)); apply IH, Hls.
  - rewrite E. destruct (is_empty (strip db l)); [apply IH, Hls|].
    destruct (_is_musical_notation db (strip db l)); apply IH, Hls.
Qed.

End CleaningFacts.

Lemma notation_only_text_witness :
  clean_musical_notation basic_latin notation_text = [].
Proof.
  apply (notation_only_text_is_removed basic_latin notation_text).
  apply Forall_forall. intros l Hl. vm_compute in Hl.
  repeat (destruct Hl as [Hl|Hl];
          [subst l; intros c Hc; vm_compute in Hc;
           repeat (destruct Hc as [Hc|Hc];
                   [subst c; first [left; reflexivity|right; reflexivity]|]);
           destruct Hc|]).
  destruct Hl.
Defined.

(** ** Cleaning only removes *)

Section ShrinkFacts.

Variable db : UnicodeDB.

Lemma join_total (sep : char) (ls : list str) :
  length (join [sep] ls) = total_length ls - 1.
Proof.
  unfold total_length. induction ls as [|p ls IH]; [reflexivity|].
  destruct ls as [|q r].
  - simpl. lia.
  - change (join [sep] (p :: q :: r)) with (p ++ [sep] ++ join [sep] (q :: r)).
    rewrite !length_app, IH. simpl. lia.
Qed.

Lemma lstrip_length (s : str) : length (lstrip db s) <= length s.
Proof.
  destruct (lstrip_suffix db s) as [p [Hp _]].
  rewrite Hp at 2. rewrite length_app. lia.
Qed.

Lemma strip_length (s : str) : length (strip db s) <= length s.
Proof.
  unfold strip. destruct (rstrip_prefix db (lstrip db s)) as [q [Hq _]].
  pose proof (lstrip_length s) as L. rewrite Hq in L at 1.
  rewrite length_app in L. lia.
Qed.

Lemma sub_from_length (ic : bool) (pat : list atom) :
  forall (s : str) (skip : nat) (prev : option char),
    length (sub_from db ic pat skip prev s) <= length s.
Proof.
  induction s as [|c s IH]; intros skip prev; simpl; [lia|].
  destruct skip as [|n].
  - destruct (run db ic pat prev (c :: s)) as [g|].
    + destruct (length (concat g)); simpl.
      * specialize (IH 0 (Some c)). lia.
      * specialize (IH n (Some c)). lia.
    + simpl. specialize (IH 0 (Some c)). lia.
  - specialize (IH n (Some c)). lia.
Qed.

Lemma patterns_length (pats : list (list atom)) :
  forall line : str,
    length (fold_left (fun cleaned pattern => re_sub db true pattern cleaned)
              pats line)
    <= length line.
Proof.
  induction pats as [|p pats IH]; intros line; simpl; [lia|].
  eapply Nat.le_trans; [apply IH|]. apply sub_from_length.
Qed.

Lemma split_ws_space (c : char) (s : str) :
  isspace db c = true -> split_ws db (c :: s) = split_ws db s.
Proof. intros H. simpl. rewrite H. reflexivity. Qed.

(** The words of a string, each with one separator, are not longer than
    the string with one separator. *)
Lemma split_ws_total (s : str) :
  total_length (split_ws db s) <= S (length s).
Proof.
  unfold total_length.
  assert (G : forall n s, length s <= n ->
            list_sum (map (fun l => S (length l)) (split_ws db s))
            <= S (length s)); [|apply (G (length s)); lia].
  clear s. induction n as [|n IH]; intros s Hn.
  - destruct s; [simpl; lia|simpl in Hn; lia].
  - destruct s as [|c s]; [simpl; lia|]. simpl in Hn.
    destruct (isspace db c) eqn:Sc.
    + rewrite split_ws_space by exact Sc.
      specialize (IH s ltac:(lia)). simpl. lia.
    + destruct s as [|d s'].
      * simpl. rewrite Sc. simpl. lia.
      * change (split_ws db (c :: d :: s'))
          with (if isspace db c then split_ws db (d :: s')
                else if isspace db d then [c] :: split_ws db (d :: s')
                else match split_ws db (d :: s') with
                     | w :: ws => (c :: w) :: ws
                     | [] => [[c]]
                     end).
        rewrite Sc. destruct (isspace db d) eqn:Sd.
        -- rewrite split_ws_space by exact Sd. simpl in Hn.
           specialize (IH s' ltac:(lia)). simpl. lia.
        -- specialize (IH (d :: s') ltac:(lia)).
           destruct (split_ws db (d :: s')); simpl in *; lia.
Qed.

Lemma apply_pattern_cleaning_length (line : str) :
  length (_apply_pattern_cleaning db line) <= length line.
Proof.
  unfold _apply_pattern_cleaning. rewrite join_total.
  pose proof (split_ws_total (fold_left
    (fun cleaned pattern => re_sub db true pattern cleaned)
    MUSICAL_PATTERNS line)) as H1.
  pose proof (patterns_length MUSICAL_PATTERNS line) as H2. lia.
Qed.

Lemma cleaned_lines_total (lines : list str) :
  total_length (cleaned_lines db lines) <= total_length lines.
Proof.
  unfold total_length. induction lines as [|l ls IH]; [simpl; lia|].
  simpl.
  destruct (is_empty (strip db l)); [lia|].
  destruct (_is_musical_notation db (strip db l)); [lia|].
  destruct (_has_valid_content db (_apply_pattern_cleaning db (strip db l)));
    [|lia].
  simpl. pose proof (apply_pattern_cleaning_length (strip db l)).
  pose proof (strip_length l). lia.
Qed.

Lemma join_split_on (sep : char) (s : str) :
  join [sep] (split_on sep s) = s.
Proof.
  induction s as [|c s IH]; [reflexivity|]. simpl.
  destruct (N.eqb c sep) eqn:E.
  - apply N.eqb_eq in E. subst c.
    destruct (split_on sep s) as [|p ps] eqn:S1;
      [exfalso; apply (split_on_nonempty sep s S1)|].
    change (join [sep] ([] :: p :: ps)) with ([] ++ [sep] ++ join [sep] (p :: ps)).
    rewrite IH. reflexivity.
  - destruct (split_on sep s) as [|p ps] eqn:S1;
      [exfalso; apply (split_on_nonempty sep s S1)|].
    destruct ps as [|q r].
    + simpl in *. rewrite IH. reflexivity.
    + change (join [sep] ((c :: p) :: q :: r))
        with (c :: (p ++ [sep] ++ join [sep] (q :: r))).
      change (join [sep] (p :: q :: r))
        with (p ++ [sep] ++ join [sep] (q :: r)) in IH.
      rewrite IH. reflexivity.
Qed.

Lemma split_on_In (sep : char) (s : str) (l : str) (x : char) :
  In l (split_on sep s) -> In x l -> In x s.
Proof.
  intros Hl Hx. rewrite <- (join_split_on sep s).
  revert Hl. generalize (split_on sep s). intros ls Hl.
  induction ls as [|p ls IH]; [destruct Hl|].
  destruct ls as [|q r].
  - destruct Hl as [<-|[]]. exact Hx.
  - change (join [sep] (p :: q :: r)) with (p ++ [sep] ++ join [sep] (q :: r)).
    destruct Hl as [<-|Hl].
    + apply in_or_app. left. exact Hx.
    + apply in_or_app. right. apply in_or_app. right. apply IH, Hl.
Qed.

Lemma cleaned_lines_chars (lines : list str) (l : str) (x : char) :
  In l (cleaned_lines db lines) -> In x l ->
  x = SP \/ exists o, In o lines /\ In x o.
Proof.
  induction lines as [|o ls IH]; [intros []|]. simpl.
  assert (Hrest : In l (cleaned_lines db ls) -> In x l ->
            x = SP \/ exists o0, In o0 (o :: ls) /\ In x o0).
  { intros H1 H2. destruct (IH H1 H2) as [K|[o0 [K1 K2]]]; [left; exact K|].
    right. exists o0. split; [right; exact K1|exact K2]. }
  destruct (is_empty (strip db o)); [exact Hrest|].
  destruct (_is_musical_notation db (strip db o)); [exact Hrest|].
  destruct (_has_valid_content db (_apply_pattern_cleaning db (strip db o)))
    eqn:V; [|exact Hrest].
  intros [<-|H1] H2; [|apply Hrest; assumption].
  destruct (apply_pattern_cleaning_stored db (strip db o)
              (valid_content_nonempty db _ V)) as [_ Hx].
  destruct (Hx x H2) as [K|K]; [left; exact K|].
  right. exists o. split; [left; reflexivity|]. apply (strip_In db _ _ K).
Qed.

(** X10: cleaning only removes: the cleaned text is never longer than
    the text, and each of its characters is a character of the text, a
    space or a line feed. *)
Theorem clean_only_removes (text : str) :
  length (clean_musical_notation db text) <= length text
  /\ forall x, In x (clean_musical_notation db text) ->
       x = SP \/ x = LF \/ In x text.
Proof.
  unfold clean_musical_notation. split.
  - rewrite <- (join_split_on LF text) at 2. rewrite !join_total.
    pose proof (cleaned_lines_total (split_on LF text)). lia.
  - intros x Hx. apply join_In in Hx.
    destruct Hx as [[<-|[]]|[l [Hl Hx]]]; [right; left; reflexivity|].
    destruct (cleaned_lines_chars _ _ _ Hl Hx) as [K|[o [Ho Hin]]];
      [left; exact K|].
    right. right. apply (split_on_In LF text o x Ho Hin).
Qed.

End ShrinkFacts.

(** ** Page-wise extraction *)

Section ExtractorFacts.

Variable db : UnicodeDB.

Lemma cleaned_lines_app (a b : list str) :
  cleaned_lines db (a ++ b) = cleaned_lines db a ++ cleaned_lines db b.
Proof.
  induction a as [|l a IH]; [reflexivity|]. simpl.
  destruct (is_empty (strip db l)); [exact IH|].
  destruct (_is_musical_notation db (strip db l)); [exact IH|].
  destruct (_has_valid_content db (_apply_pattern_cleaning db (strip db l)));
    [|exact IH].
  simpl. rewrite IH. reflexivity.
Qed.

Lemma split_on_app (sep : char) (a b : str) :
  split_on sep (a ++ sep :: b) = split_on sep a ++ split_on sep b.
Proof.
  induction a as [|c a IH]; simpl.
  - rewrite N.eqb_refl. reflexivity.
  - destruct (N.eqb c sep); [rewrite IH; reflexivity|].
    rewrite IH.
    destruct (split_on sep a) as [|p ps] eqn:E;
      [exfalso; apply (split_on_nonempty sep a E)|].
    reflexivity.
Qed.

Lemma split_on_join_texts (sep : char) (t : str) (ts : list str) :
  split_on sep (join [sep] (t :: ts)) = flat_map (split_on sep) (t :: ts).
Proof.
  revert t. induction ts as [|u ts IH]; intros t.
  - simpl. rewrite app_nil_r. reflexivity.
  - change (join [sep] (t :: u :: ts)) with (t ++ sep :: join [sep] (u :: ts)).
    rewrite split_on_app, IH. reflexivity.
Qed.

Lemma kept_nonempty (t : str) : Forall (fun l => l <> []) (kept db t).
Proof.
  eapply Forall_impl;
    [|apply (cleaned_lines_stored db _ (split_on_line_feed_free t))].
  intros l [[H _] _]. exact H.
Qed.

Lemma clean_join_texts (ts : list str) :
  clean_musical_notation db (join [LF] ts) = join [LF] (flat_map (kept db) ts).
Proof.
  unfold clean_musical_notation. destruct ts as [|t ts]; [reflexivity|].
  rewrite split_on_join_texts. f_equal.
  generalize (t :: ts). intros l. induction l as [|x l IH]; [reflexivity|].
  simpl. rewrite cleaned_lines_app, IH. reflexivity.
Qed.

Lemma join_nonempty {sep : str} {ls : list str} :
  Forall (fun l => l <> []) ls -> join sep ls = [] -> ls = [].
Proof.
  intros H E. destruct ls as [|p ls]; [reflexivity|].
  inversion H as [|x xs Hp _]. subst.
  destruct ls as [|q r]; [simpl in E; congruence|].
  change (join sep (p :: q :: r)) with (p ++ sep ++ join sep (q :: r)) in E.
  destruct p; [congruence|discriminate E].
Qed.

Lemma join_app (sep : str) (a b : list str) :
  a <> [] -> b <> [] ->
  join sep (a ++ b) = join sep a ++ sep ++ join sep b.
Proof.
  intros Ha Hb. induction a as [|p a IH]; [congruence|].
  destruct a as [|q r].
  - simpl. destruct b; [congruence|reflexivity].
  - change (join sep ((p :: q :: r) ++ b))
      with (p ++ sep ++ join sep ((q :: r) ++ b)).
    rewrite IH by discriminate.
    change (join sep (p :: q :: r)) with (p ++ sep ++ join sep (q :: r)).
    rewrite <- !app_assoc. reflexivity.
Qed.

(** Joining the cleaned texts that are not empty is joining all the
    kept lines. *)
Lemma join_cleaned_texts (ts : list str) :
  join [LF] (filter (fun c => negb (is_empty c))
               (map (clean_musical_notation db) ts))
  = join [LF] (flat_map (kept db) ts).
Proof.
  induction ts as [|t ts IH]; [reflexivity|].
  cbn [map filter flat_map].
  change (clean_musical_notation db t) with (join [LF] (kept db t)).
  destruct (kept db t) as [|k ks] eqn:K.
  - simpl. exact IH.
  - assert (Hk : Forall (fun l => l <> []) (k :: ks))
      by (rewrite <- K; apply kept_nonempty).
    assert (Hj : join [LF] (k :: ks) <> []).
    { intros E. apply (join_nonempty Hk) in E. discriminate E. }
    destruct (join [LF] (k :: ks)) as [|c cs] eqn:J; [congruence|].
    cbn [is_empty negb].
    assert (Hall : Forall (fun l => l <> []) (flat_map (kept db) ts)).
    { apply Forall_forall. intros l Hl. apply in_flat_map in Hl.
      destruct Hl as [u [_ Hl]].
      pose proof (kept_nonempty u) as Hu. rewrite Forall_forall in Hu.
      apply Hu, Hl. }
    destruct (filter (fun c0 => negb (is_empty c0))
                (map (clean_musical_notation db) ts)) as [|r rs] eqn:R.
    + simpl in IH. symmetry in IH. apply (join_nonempty Hall) in IH.
      rewrite IH, app_nil_r. simpl. symmetry. exact J.
    + change (join [LF] ((c :: cs) :: r :: rs))
        with ((c :: cs) ++ [LF] ++ join [LF] (r :: rs)).
      rewrite IH, <- J. symmetry. apply join_app; [discriminate|].
      intros E. rewrite E in IH.
      assert (Hr : In r (filter (fun c0 => negb (is_empty c0))
                          (map (clean_musical_notation db) ts)))
        by (rewrite R; left; reflexivity).
      apply filter_In in Hr. destruct Hr as [_ Hr].
      destruct r; [discriminate Hr|].
      destruct rs; discriminate IH.
Qed.

Lemma lstrip_all_space (s : str) :
  lstrip db s = [] -> forallb (isspace db) s = true.
Proof.
  intros H. destruct (lstrip_suffix db s) as [p [Hp Hs]].
  rewrite H, app_nil_r in Hp. subst p. exact Hs.
Qed.

Lemma strip_empty_all_space (s : str) :
  strip db s = [] -> forallb (isspace db) s = true.
Proof.
  unfold strip. intros H.
  destruct (rstrip_prefix db (lstrip db s)) as [q [Hq Hs]].
  rewrite H in Hq. simpl in Hq.
  destruct (lstrip_suffix db s) as [p [Hp Hps]].
  rewrite Hp, Hq, forallb_app, Hps, Hs. reflexivity.
Qed.

Lemma all_space_strip (s : str) :
  forallb (isspace db) s = true -> strip db s = [].
Proof.
  intros H. unfold strip.
  replace (lstrip db s) with (@nil char); [reflexivity|].
  symmetry. induction s as [|c s IH]; [reflexivity|].
  simpl in *. apply andb_true_iff in H. destruct H as [-> H]. apply IH, H.
Qed.

(** A text of whitespace only has no kept line. *)
Lemma blank_text_kept (t : str) : strip db t = [] -> kept db t = [].
Proof.
  intros H. apply strip_empty_all_space in H. unfold kept.
  assert (Hl : Forall (fun l => strip db l = []) (split_on LF t)).
  { apply Forall_forall. intros l Hl. apply all_space_strip.
    apply forallb_forall. intros x Hx.
    rewrite forallb_forall in H. apply H.
    apply (split_on_In LF t l x Hl Hx). }
  induction (split_on LF t) as [|l ls IH]; [reflexivity|].
  inversion Hl as [|x xs H1 H2]. subst. simpl. rewrite H1. simpl.
  apply IH, H2.
Qed.

(** A cleaned text is empty as soon as its trimmed form is. *)
Lemma clean_strip_empty (t : str) :
  strip db (clean_musical_notation db t) = [] ->
  clean_musical_notation db t = [].
Proof.
  intros H. unfold clean_musical_notation in *. fold (kept db t) in *.
  destruct (kept db t) as [|k ks] eqn:K; [reflexivity|].
  pose proof (cleaned_lines_stored db _ (split_on_line_feed_free t)) as Hs.
  fold (kept db t) in Hs. rewrite K in Hs.
  inversion Hs as [|x xs [[Hne Hno] _] _]. subst.
  apply strip_empty_all_space in H.
  destruct k as [|c k']; [congruence|].
  unfold no_outer_space in Hno. apply andb_true_iff in Hno.
  destruct Hno as [Hc _]. apply negb_true_iff in Hc.
  destruct ks as [|q r].
  - simpl in H. rewrite Hc in H. discriminate H.
  - change (join [LF] ((c :: k') :: q :: r))
      with (c :: (k' ++ [LF] ++ join [LF] (q :: r))) in H.
    simpl in H. rewrite Hc in H. discriminate H.
Qed.

Lemma basic_loop_texts :
  forall (pdf : list page) (all_text : list str),
    basic_loop db pdf all_text
    = all_text ++ filter (fun c => negb (is_empty c))
                    (map (clean_musical_notation db) (page_texts pdf)).
Proof.
  induction pdf as [|pg pdf IH]; intros all_text; simpl.
  - rewrite app_nil_r. reflexivity.
  - destruct pg as [[text|]|]; simpl.
    + destruct (is_empty text) eqn:E1; simpl.
      { destruct text; [|discriminate]. simpl. apply IH. }
      destruct (is_empty (strip db text)) eqn:E2; simpl.
      { destruct (strip db text) eqn:S1; [|discriminate].
        change (clean_musical_notation db text) with (join [LF] (kept db text)).
        rewrite (blank_text_kept text S1). simpl. apply IH. }
      destruct (is_empty (strip db (clean_musical_notation db text))) eqn:E3;
        simpl.
      * destruct (strip db (clean_musical_notation db text)) eqn:S1;
          [|discriminate].
        rewrite (clean_strip_empty text S1). simpl. apply IH.
      * destruct (clean_musical_notation db text) eqn:C;
          [simpl in E3; discriminate|].
        simpl. rewrite IH, <- app_assoc. reflexivity.
    + apply IH.
    + rewrite app_nil_r. reflexivity.
Qed.

Lemma basic_text_clean (pdf : list page) :
  extract_text_basic db pdf
  = clean_musical_notation db (join [LF] (page_texts pdf)).
Proof.
  unfold extract_text_basic. rewrite basic_loop_texts. simpl.
  rewrite join_cleaned_texts, clean_join_texts. reflexivity.
Qed.

(** X11: extracting page by page is cleaning the pages as one text:
    [extract_text_basic] returns the cleaning of the texts of the pages
    read before an exception, joined by line feeds. *)
Theorem extract_text_basic_is_clean (pdf : list page) :
  extract_text_basic db pdf
  = clean_musical_notation db (join [LF] (page_texts pdf)).
Proof. apply basic_text_clean. Qed.

Lemma ocr_loop_texts :
  forall (ocr : list (option str)) (all_text : list str),
    ocr_loop db ocr all_text
    = if existsb (fun p => negb (is_some p)) ocr then None
      else Some (all_text
                 ++ filter (fun c => negb (is_empty c))
                      (map (clean_musical_notation db) (ocr_texts ocr))).
Proof.
  induction ocr as [|pg ocr IH]; intros all_text; simpl.
  - rewrite app_nil_r. reflexivity.
  - destruct pg as [text|]; simpl; [|reflexivity].
    destruct (is_empty (strip db text)) eqn:E2; simpl.
    { destruct (strip db text) eqn:S1; [|discriminate].
      change (clean_musical_notation db text) with (join [LF] (kept db text)).
      rewrite (blank_text_kept text S1). simpl. apply IH. }
    destruct (is_empty (strip db (clean_musical_notation db text))) eqn:E3;
      simpl.
    + destruct (strip db (clean_musical_notation db text)) eqn:S1;
        [|discriminate].
      rewrite (clean_strip_empty text S1). simpl. apply IH.
    + destruct (clean_musical_notation db text) eqn:C;
        [simpl in E3; discriminate|].
      simpl. rewrite IH.
      destruct (existsb (fun p => negb (is_some p)) ocr); [reflexivity|].
      rewrite <- app_assoc. reflexivity.
Qed.

(** X12: whatever the libraries do, [extract_text_advanced] returns the
    cleaning of a list of page texts joined by line feeds: the texts of
    the PDF pages read, the texts of the OCR, or none. *)
Theorem extract_text_advanced_is_clean (available : bool) (pdf : list page)
    (ocr : list (option str)) :
  exists texts,
    extract_text_advanced db available pdf ocr
    = clean_musical_notation db (join [LF] texts)
    /\ (texts = page_texts pdf \/ texts = ocr_texts ocr \/ texts = []).
Proof.
  unfold extract_text_advanced.
  destruct (negb available).
  { exists (page_texts pdf). split; [apply basic_text_clean|auto]. }
  cbv zeta.
  destruct (negb (is_empty (extract_text_basic db pdf))
            && (100 <? length (strip db (extract_text_basic db pdf)))).
  { exists (page_texts pdf). split; [apply basic_text_clean|auto]. }
  unfold _extract_with_ocr. rewrite ocr_loop_texts.
  destruct (existsb (fun p => negb (is_some p)) ocr).
  - exists []. split; [reflexivity|auto].
  - exists (ocr_texts ocr). simpl.
    rewrite join_cleaned_texts, clean_join_texts. auto.
Qed.

(** X13: when OCR is available and the text of the PDF pages, trimmed,
    has 100 characters or fewer, a single failing OCR call makes
    [extract_text_advanced] return the empty string: neither the text of
    the PDF pages nor the pages already recognised are returned. *)
Theorem failed_ocr_returns_nothing (pdf : list page)
    (ocr : list (option str)) :
  length (strip db (extract_text_basic db pdf)) <= 100 ->
  In None ocr ->
  extract_text_advanced db true pdf ocr = [].
Proof.
  intros Hshort Hfail. unfold extract_text_advanced. cbv zeta. simpl negb.
  cbv iota.
  replace (100 <? length (strip db (extract_text_basic db pdf))) with false
    by (symmetry; apply Nat.ltb_ge; exact Hshort).
  rewrite andb_false_r. unfold _extract_with_ocr. rewrite ocr_loop_texts.
  replace (existsb (fun p => negb (is_some p)) ocr) with true; [reflexivity|].
  symmetry. apply existsb_exists. exists None. auto.
Qed.

End ExtractorFacts.

Lemma failed_ocr_witness :
  extract_text_advanced basic_latin true short_pdf failing_ocr = [].
Proof.
  apply (failed_ocr_returns_nothing basic_latin short_pdf failing_ocr).
  - vm_compute. lia.
  - right. left. reflexivity.
Defined.

(** Without OCR the same document gives its text. *)
Example short_pdf_basic_text :
  extract_text_advanced basic_latin false short_pdf failing_ocr
  = lit "Amazing grace".
Proof. vm_compute. reflexivity. Qed.

(** ** The JSON export *)

Lemma str_eqb_eq (a b : str) : str_eqb a b = true <-> a = b.
Proof.
  revert b. induction a as [|x a IH]; intros [|y b]; simpl;
    try (split; [discriminate|discriminate]); [tauto|].
  rewrite andb_true_iff, N.eqb_eq, IH. split.
  - intros [-> ->]. reflexivity.
  - intros H. inversion H. auto.
Qed.

Lemma str_eqb_refl (a : str) : str_eqb a a = true.
Proof. apply str_eqb_eq. reflexivity. Qed.

Lemma str_eqb_neq (a b : str) : a <> b -> str_eqb a b = false.
Proof.
  intros H. destruct (str_eqb a b) eqn:E; [|reflexivity].
  apply str_eqb_eq in E. contradiction.
Qed.

Section DictFacts.

Variable V : Type.

Lemma dict_get_set (d : list (str * V)) (k : str) (v : V) :
  dict_get (dict_set d k v) k = Some v.
Proof.
  induction d as [|[k' v'] d IH]; simpl.
  - rewrite str_eqb_refl. reflexivity.
  - destruct (str_eqb k' k) eqn:E; simpl; rewrite E; auto.
Qed.

Lemma dict_get_set_other (d : list (str * V)) (k k' : str) (v : V) :
  k <> k' -> dict_get (dict_set d k v) k' = dict_get d k'.
Proof.
  intros H. induction d as [|[k0 v0] d IH]; simpl.
  - rewrite str_eqb_neq by exact H. reflexivity.
  - destruct (str_eqb k0 k) eqn:E; simpl.
    + apply str_eqb_eq in E. subst k0. rewrite str_eqb_neq by exact H.
      reflexivity.
    + rewrite IH. reflexivity.
Qed.

Lemma keys_set_in (d : list (str * V)) (k : str) (v : V) :
  In k (keys d) -> keys (dict_set d k v) = keys d.
Proof.
  induction d as [|[k0 v0] d IH]; simpl; [intros []|].
  destruct (str_eqb k0 k) eqn:E; simpl; [reflexivity|].
  intros [K|K].
  - subst k0. rewrite str_eqb_refl in E. discriminate E.
  - rewrite IH by exact K. reflexivity.
Qed.

Lemma dict_set_new (d : list (str * V)) (k : str) (v : V) :
  ~ In k (keys d) -> dict_set d k v = d ++ [(k, v)].
Proof.
  induction d as [|[k0 v0] d IH]; simpl; [reflexivity|].
  intros H. rewrite str_eqb_neq by (intros K; apply H; left; exact K).
  rewrite IH; [reflexivity|]. intros K. apply H. right. exact K.
Qed.

Lemma keys_set (d : list (str * V)) (k : str) (v : V) :
  keys (dict_set d k v) = if in_dec (list_eq_dec N.eq_dec) k (keys d)
                          then keys d else keys d ++ [k].
Proof.
  destruct (in_dec (list_eq_dec N.eq_dec) k (keys d)) as [H|H].
  - apply keys_set_in, H.
  - rewrite dict_set_new by exact H. unfold keys. rewrite map_app.
    reflexivity.
Qed.

End DictFacts.

Section JsonFacts.

Lemma verse_key_inj (v w : verse) :
  verse_key v = verse_key w -> verse_number v = verse_number w.
Proof. unfold verse_key. apply app_inv_head. Qed.

Lemma verses_table_keys :
  forall (vs : list verse) (d : list (str * json_verse)),
    NoDup (keys d) ->
    NoDup (keys (verses_table d vs))
    /\ forall k, In k (keys (verses_table d vs))
                 <-> In k (keys d) \/ In k (map verse_key vs).
Proof.
  induction vs as [|v vs IH]; intros d Hd.
  - simpl. split; [exact Hd|]. intros k. tauto.
  - change (verses_table d (v :: vs))
      with (verses_table (dict_set d (verse_key v) (verse_entry v)) vs).
    assert (Hd' : NoDup (keys (dict_set d (verse_key v) (verse_entry v)))).
    { rewrite keys_set.
      destruct (in_dec (list_eq_dec N.eq_dec) (verse_key v) (keys d));
        [exact Hd|].
      apply NoDup_app; [exact Hd|repeat constructor; intros []|].
      intros x Hx [<-|[]]. contradiction. }
    destruct (IH _ Hd') as [H1 H2]. split; [exact H1|].
    intros k. rewrite H2, keys_set. simpl.
    destruct (in_dec (list_eq_dec N.eq_dec) (verse_key v) (keys d)) as [K|K].
    + split; [intros [H|H]; auto|intros [H|[<-|H]]; auto].
    + rewrite in_app_iff. simpl. tauto.
Qed.

Lemma verses_table_fresh :
  forall (vs : list verse) (d : list (str * json_verse)),
    NoDup (map verse_key vs) ->
    (forall v, In v vs -> ~ In (verse_key v) (keys d)) ->
    verses_table d vs
    = d ++ map (fun v => (verse_key v, verse_entry v)) vs.
Proof.
  induction vs as [|v vs IH]; intros d Hn Hf.
  - simpl. rewrite app_nil_r. reflexivity.
  - change (verses_table d (v :: vs))
      with (verses_table (dict_set d (verse_key v) (verse_entry v)) vs).
    inversion Hn as [|x xs Hx Hxs]. subst.
    rewrite dict_set_new by (apply Hf; left; reflexivity).
    rewrite IH.
    + rewrite <- app_assoc. reflexivity.
    + exact Hxs.
    + intros w Hw. unfold keys. rewrite map_app, in_app_iff. simpl.
      intros [K|[K|[]]].
      * apply (Hf w); [right; exact Hw|exact K].
      * apply Hx. rewrite K. apply in_map. exact Hw.
Qed.

Lemma verses_table_get_other :
  forall (vs : list verse) (d : list (str * json_verse)) (k : str),
    ~ In k (map verse_key vs) ->
    dict_get (verses_table d vs) k = dict_get d k.
Proof.
  induction vs as [|v vs IH]; intros d k H; [reflexivity|].
  change (verses_table d (v :: vs))
    with (verses_table (dict_set d (verse_key v) (verse_entry v)) vs).
  rewrite IH by (intros K; apply H; right; exact K).
  apply dict_get_set_other. intros K. apply H. left. exact K.
Qed.

Lemma verses_table_app (a b : list verse) (d : list (str * json_verse)) :
  verses_table d (a ++ b) = verses_table (verses_table d a) b.
Proof. unfold verses_table. apply fold_left_app. Qed.

Lemma NoDup_verse_keys (vs : list verse) :
  NoDup (map verse_key vs) <-> NoDup (map verse_number vs).
Proof.
  induction vs as [|v vs IH]; cbn [map].
  - split; constructor.
  - split; intros H; inversion H as [|x xs Hx Hxs]; subst; constructor.
    + intros K. apply Hx. apply in_map_iff in K.
      destruct K as [w [E Hw]]. apply in_map_iff. exists w.
      split; [unfold verse_key; rewrite E; reflexivity|exact Hw].
    + apply IH, Hxs.
    + intros K. apply Hx. apply in_map_iff in K.
      destruct K as [w [E Hw]]. apply verse_key_inj in E.
      apply in_map_iff. exists w. auto.
    + apply IH, Hxs.
Qed.

(** X14: when the verses of a song have pairwise distinct numbers, its
    JSON form has one entry per verse, in the order of the verses, under
    the key "estrofe_" followed by the number. *)
Theorem json_verses_round_trip (s : song) :
  NoDup (map verse_number (verses s)) ->
  js_verses (_format_song_for_json s)
  = map (fun v => (verse_key v, verse_entry v)) (verses s).
Proof.
  intros H. simpl. rewrite verses_table_fresh; [reflexivity| |auto].
  apply NoDup_verse_keys, H.
Qed.

(** X15: the verse table of the JSON form has one entry per distinct
    verse number: its keys are pairwise distinct, they are the keys of
    the verses, and the table has as many entries as the song has verses
    exactly when no two verses of the song have the same number. *)
Theorem json_verses_keys (s : song) :
  NoDup (keys (js_verses (_format_song_for_json s)))
  /\ (forall k, In k (keys (js_verses (_format_song_for_json s)))
                <-> In k (map verse_key (verses s)))
  /\ length (js_verses (_format_song_for_json s)) <= length (verses s)
  /\ (length (js_verses (_format_song_for_json s)) = length (verses s)
      <-> NoDup (map verse_number (verses s))).
Proof.
  simpl. destruct (verses_table_keys (verses s) [] (NoDup_nil _)) as [H1 H2].
  assert (H2' : forall k, In k (keys (verses_table [] (verses s)))
                          <-> In k (map verse_key (verses s))).
  { intros k. rewrite H2. simpl. tauto. }
  assert (Hle : length (verses_table [] (verses s)) <= length (verses s)).
  { rewrite <- (length_map fst (verses_table [] (verses s))).
    rewrite <- (length_map verse_key (verses s)).
    apply NoDup_incl_length; [exact H1|].
    intros k Hk. apply H2', Hk. }
  split; [exact H1|]. split; [exact H2'|]. split; [exact Hle|]. split.
  - intros E. apply NoDup_verse_keys.
    apply (NoDup_incl_NoDup (l := keys (verses_table [] (verses s)))).
    + exact H1.
    + unfold keys. rewrite !length_map. lia.
    + intros k Hk. apply H2', Hk.
  - intros Hn. rewrite verses_table_fresh; [|apply NoDup_verse_keys, Hn|auto].
    simpl. rewrite length_map. reflexivity.
Qed.

(** X16: under the key of a verse the JSON form holds the last verse of
    the song that has this number; the lines of an earlier verse with
    the same number are not in the table. *)
Theorem json_verse_last_wins (s : song) (before after : list verse)
    (v : verse) :
  verses s = before ++ v :: after ->
  (forall w, In w after -> verse_number w <> verse_number v) ->
  dict_get (js_verses (_format_song_for_json s)) (verse_key v)
  = Some (verse_entry v).
Proof.
  intros E H. simpl. rewrite E, verses_table_app.
  change (verses_table (verses_table [] before) (v :: after))
    with (verses_table (dict_set (verses_table [] before) (verse_key v)
                          (verse_entry v)) after).
  rewrite verses_table_get_other.
  - apply dict_get_set.
  - intros K. apply in_map_iff in K. destruct K as [w [Ew Hw]].
    apply (H w Hw). apply verse_key_inj. exact Ew.
Qed.

End JsonFacts.

Lemma json_verse_last_wins_witness :
  dict_get (js_verses (_format_song_for_json twice_two_song))
    (lit "estrofe_2")
  = Some {| jv_number := lit "2"; jv_lines := [lit "third verse"] |}.
Proof.
  apply (json_verse_last_wins twice_two_song
           [ {| verse_number := lit "1"; verse_lines := [lit "first verse"] |};
             {| verse_number := lit "2";
                verse_lines := [lit "second verse"] |} ]
           []
           {| verse_number := lit "2"; verse_lines := [lit "third verse"] |}).
  - reflexivity.
  - intros w [].
Defined.

Lemma json_verses_round_trip_witness :
  js_verses (_format_song_for_json
               {| song_number := lit "4"; song_title := lit "Rock of Ages";
                  verses := firstn 2 (verses twice_two_song);
                  chorus := [] |})
  = map (fun v => (verse_key v, verse_entry v))
      (firstn 2 (verses twice_two_song)).
Proof.
  apply (json_verses_round_trip
           {| song_number := lit "4"; song_title := lit "Rock of Ages";
              verses := firstn 2 (verses twice_two_song);
              chorus := [] |}).
  vm_compute. repeat constructor; simpl; intros H;
    repeat (destruct H as [H|H]; [discriminate H|]); exact H.
Defined.

(** [detect_structure] does produce such songs: in [same_number_text] an
    unnumbered verse is given the number "1" and the numbered verse that
    follows has the number "1" too, so the JSON form of the song has one
    verse entry for its two verses. *)
Example same_number_text_loses_a_verse :
  option_map
    (fun doc =>
       map (fun s => (map verse_number (verses s),
                      length (js_verses (_format_song_for_json s))))
         (songs doc))
    (detect_structure basic_latin same_number_text)
  = Some [ ([lit "1"; lit "1"], 1) ].
Proof. vm_compute. reflexivity. Qed.

(** ** The report *)

Section ReportFacts.

Variable word_available : bool.

Lemma record_outcome_flags (books : list result) (o : outcome) :
  exists b,
    record_outcome word_available books o = books ++ [b]
    /\ is_successful b = is_success o
    /\ is_failed b = negb (is_success o)
    /\ match details b with
       | Some d => songs_found d
       | None => 0
       end = outcome_songs o.
Proof.
  destruct o as [file folder excel json word n|file msg]; simpl.
  - eexists. split; [reflexivity|]. repeat split.
  - eexists. split; [reflexivity|]. repeat split.
Qed.

Lemma record_outcomes_summary (os : list outcome) :
  forall books,
    let final := fold_left (record_outcome word_available) os books in
    length final = length books + length os
    /\ length (filter is_successful final)
       = length (filter is_successful books)
         + length (filter is_success os)
    /\ length (filter is_failed final)
       = length (filter is_failed books)
         + length (filter (fun o => negb (is_success o)) os)
    /\ total_songs final
       = total_songs books + list_sum (map outcome_songs os).
Proof.
  induction os as [|o os IH]; intros books; cbv zeta.
  - simpl. repeat split; lia.
  - cbn [fold_left].
    destruct (record_outcome_flags books o) as [b [E [H1 [H2 H3]]]].
    specialize (IH (record_outcome word_available books o)). cbv zeta in IH.
    destruct IH as [I1 [I2 [I3 I4]]].
    rewrite I1, I2, I3, I4, E. unfold total_songs.
    rewrite !filter_app, !length_app, map_app, list_sum_app. simpl.
    rewrite H1, H2.
    destruct o; simpl in *; rewrite ?H3; repeat split; lia.
Qed.

End ReportFacts.

(** X18: in the report of any run every processed file is counted once:
    the number of successful results is the number of files that
    succeeded, the number of failed results is the number of files that
    failed, their sum is the total, and the total of songs is the sum of
    the songs found in the files that succeeded. *)
Theorem report_counts_every_file (word_available : bool)
    (outcomes : list outcome) :
  let books := fold_left (record_outcome word_available) outcomes [] in
  total (report_summary books) = length outcomes
  /\ successful (report_summary books) = length (filter is_success outcomes)
  /\ failed (report_summary books)
     = length (filter (fun o => negb (is_success o)) outcomes)
  /\ total (report_summary books)
     = successful (report_summary books) + failed (report_summary books)
  /\ total_songs books = list_sum (map outcome_songs outcomes).
Proof.
  cbv zeta.
  destruct (record_outcomes_summary word_available outcomes [])
    as [H1 [H2 [H3 H4]]].
  cbv zeta in *. simpl in *. rewrite H1, H2, H3, H4.
  repeat split; auto.
  pose proof (filter_length is_success outcomes). lia.
Qed.

(** ** The Excel export *)

Section ExcelFacts.

Variable refused : str -> bool.

Lemma NoDup_in_row (row : nat) (cols : list nat) :
  NoDup cols -> NoDup (map (fun c => (row, c)) cols).
Proof.
  induction cols as [|c cols IH]; intros H; [constructor|].
  inversion H as [|x xs Hx Hxs]. subst. simpl. constructor; [|apply IH, Hxs].
  intros K. apply in_map_iff in K. destruct K as [c' [E Hc]].
  inversion E. subst. contradiction.
Qed.

(** Writing one row: a batch of writes in the row [row], to distinct
    columns among which column 3, keeps the sheet well formed. *)
Lemma write_row (ws : list cell) (row : nat) (batch : list (nat * str)) :
  sheet_ok (ws, row) ->
  NoDup (map fst batch) ->
  In 3 (map fst batch) ->
  (forall c, In c (map fst batch) -> 1 <= c <= 5) ->
  sheet_ok (ws ++ map (fun cv => (row, fst cv, snd cv)) batch, S row).
Proof.
  intros [H1 [H2 [H3 H4]]] Hn H3in Hc. unfold sheet_ok.
  assert (Hco : map coordinates (map (fun cv => (row, fst cv, snd cv)) batch)
                = map (fun c => (row, c)) (map fst batch)).
  { rewrite !map_map. reflexivity. }
  split; [lia|]. split; [|split].
  - rewrite map_app, Hco. apply NoDup_app.
    + exact H2.
    + apply NoDup_in_row, Hn.
    + intros [r c] Hin K. apply in_map_iff in Hin.
      destruct Hin as [[[r' c'] v] [E Hin]]. simpl in E. inversion E. subst.
      destruct (H3 _ _ _ Hin) as [Hr _].
      apply in_map_iff in K. destruct K as [c0 [E0 _]]. inversion E0. lia.
  - intros r c v Hin. apply in_app_or in Hin. destruct Hin as [Hin|Hin].
    + destruct (H3 _ _ _ Hin). lia.
    + apply in_map_iff in Hin. destruct Hin as [[c0 v0] [E Hin]].
      inversion E. subst. split; [lia|]. apply Hc.
      apply in_map_iff. eexists. split; [|exact Hin]. reflexivity.
  - intros r Hr. rewrite map_app, Hco. apply in_or_app.
    destruct (Nat.eq_dec r row) as [->|Hd].
    + right. apply in_map_iff. exists 3. auto.
    + left. apply H4. lia.
Qed.

(** A run that stops with nothing more to write. *)
Lemma written_done (ws : list cell) (row : nat) :
  sheet_ok (ws, row) -> written refused ws row [] 0 (Some (ws, row)).
Proof.
  intros H. unfold written. rewrite app_nil_r, Nat.add_0_r. auto.
Qed.

(** A run that raises at a refused value. *)
Lemma written_raise (ws : list cell) (row : nat) (values : list str)
    (rows : nat) (v : str) :
  In v values -> refused v = true -> written refused ws row values rows None.
Proof.
  intros Hin Hv. unfold written. apply existsb_exists. exists v. auto.
Qed.

(** A run that starts with a whole row of accepted values. *)
Lemma written_after_row (ws : list cell) (row : nat)
    (batch : list (nat * str)) (values : list str) (rows : nat)
    (res : option (list cell * nat)) :
  sheet_ok (ws, row) ->
  NoDup (map fst batch) ->
  In 3 (map fst batch) ->
  (forall c, In c (map fst batch) -> 1 <= c <= 5) ->
  existsb refused (map snd batch) = false ->
  (sheet_ok (ws ++ map (fun cv => (row, fst cv, snd cv)) batch, S row) ->
   written refused (ws ++ map (fun cv => (row, fst cv, snd cv)) batch)
     (S row) values rows res) ->
  written refused ws row (map snd batch ++ values) (S rows) res.
Proof.
  intros Hok Hn H3 Hc Hacc Hres.
  specialize (Hres (write_row ws row batch Hok Hn H3 Hc)).
  unfold written in *. rewrite existsb_app, Hacc. cbn [orb].
  destruct res as [[ws' row']|]; [|exact Hres].
  destruct Hres as [E [M [S' R]]]. split; [exact E|].
  split; [|split; [exact S'|lia]].
  rewrite M, map_app, map_map, <- app_assoc. reflexivity.
Qed.

(** A run followed by another one. *)
Lemma written_then (ws : list cell) (row : nat) (values1 values2 : list str)
    (rows1 rows2 : nat) (res : option (list cell * nat))
    (f : list cell * nat -> option (list cell * nat)) :
  written refused ws row values1 rows1 res ->
  (forall ws1 row1,
     sheet_ok (ws1, row1) ->
     written refused ws1 row1 values2 rows2 (f (ws1, row1))) ->
  written refused ws row (values1 ++ values2) (rows1 + rows2)
    (match res with Some acc => f acc | None => None end).
Proof.
  intros H1 H2. unfold written in H1.
  destruct res as [[ws1 row1]|].
  - destruct H1 as [E1 [M1 [S1 R1]]]. specialize (H2 ws1 row1 S1).
    unfold written in *. rewrite existsb_app, E1. cbn [orb].
    destruct (f (ws1, row1)) as [[ws2 row2]|]; [|exact H2].
    destruct H2 as [E2 [M2 [S2 R2]]]. split; [exact E2|].
    split; [|split; [exact S2|lia]].
    rewrite M2, M1, <- app_assoc. reflexivity.
  - unfold written. rewrite existsb_app, H1. reflexivity.
Qed.

(** The columns of a row are distinct, hold column 3 and lie between 1
    and 5. *)
Ltac columns :=
  cbn [map fst];
  first
    [ repeat constructor; cbn [In]; intros K;
      repeat (destruct K as [K|K]; [discriminate K|]); exact K
    | cbn [In]; tauto
    | let c := fresh "c" in
      let K := fresh "K" in
      intros c K; cbn [In] in K;
      repeat (destruct K as [K|K]; [subst c; lia|]); destruct K ].

(** The next write of the run: the value is refused and the run raises,
    or the write is done. *)
Ltac next_write :=
  match goal with
  | |- context [write refused ?ws ?r ?c ?v] =>
      unfold write at 1;
      let R := fresh "R" in
      destruct (refused v) eqn:R;
      [ first
          [ congruence
          | apply (written_raise _ _ _ _ v);
            [ cbn [app In verse_values song_values excel_values flat_map];
              repeat (first [ left; reflexivity | right ]);
              try (apply in_or_app; left; cbn [In]; tauto)
            | exact R ] ]
      | ]
  end.

Lemma add_verse_rows_written (number : str) (vs : list verse) :
  forall ws row,
    sheet_ok (ws, row) ->
    written refused ws row (flat_map (verse_values number) vs) (length vs)
      (add_verse_rows refused number vs ws row).
Proof.
  induction vs as [|v vs IH]; intros ws row H.
  - apply written_done, H.
  - cbn [add_verse_rows flat_map length].
    do 4 next_write. rewrite <- !app_assoc.
    apply (written_after_row ws row
             [ (1, number); (3, lit "VERSE"); (4, verse_number v);
               (5, join (lit " / ") (verse_lines v)) ]);
      [exact H|columns|columns|columns| |].
    + cbn [map snd existsb]. rewrite R, R0, R1, R2. reflexivity.
    + intros Hok. apply IH, Hok.
Qed.

Lemma add_song_written (ws : list cell) (s : song) (row : nat) :
  sheet_ok (ws, row) ->
  written refused ws row (song_values s) (song_rows s)
    (_add_song_to_excel refused ws s row).
Proof.
  intros H. unfold _add_song_to_excel, song_values, song_rows.
  do 3 next_write. rewrite <- !app_assoc.
  apply (written_after_row ws row
           [ (1, song_number s); (2, song_title s); (3, lit "TITLE") ]);
    [exact H|columns|columns|columns| |].
  { cbn [map snd existsb]. rewrite R, R0, R1. reflexivity. }
  intros Hok.
  apply written_then; [apply add_verse_rows_written, Hok|].
  intros ws1 row1 H1.
  destruct (chorus s) as [|c cs]; cbn [is_empty_list negb].
  - apply written_done, H1.
  - do 3 next_write. rewrite <- !app_assoc.
    apply (written_after_row ws1 row1
             [ (1, song_number s); (3, lit "CHORUS");
               (5, join (lit " / ") (c :: cs)) ] [] 0);
      [exact H1|columns|columns|columns| |].
    + cbn [map snd existsb]. rewrite R2, R3, R4. reflexivity.
    + intros Hok1. apply written_done, Hok1.
Qed.

Lemma add_song_rows_written (ss : list song) :
  forall ws row,
    sheet_ok (ws, row) ->
    written refused ws row (flat_map song_values ss)
      (list_sum (map song_rows ss)) (add_song_rows refused ss ws row).
Proof.
  induction ss as [|s ss IH]; intros ws row H.
  - apply written_done, H.
  - cbn [add_song_rows flat_map map list_sum].
    apply (written_then ws row (song_values s) (flat_map song_values ss)
             (song_rows s) (list_sum (map song_rows ss))
             (_add_song_to_excel refused ws s row)
             (fun acc => add_song_rows refused ss (fst acc) (snd acc)));
      [apply add_song_written, H|].
    intros ws1 row1 H1. apply IH, H1.
Qed.

Lemma create_excel_file_written (book_data : structure) :
  written refused [] 1 (excel_values book_data)
    (1 + ((if is_empty (title book_data) then 0 else 1)
          + list_sum (map song_rows (songs book_data))))
    (create_excel_file refused book_data).
Proof.
  assert (H0 : sheet_ok ([], 1)).
  { unfold sheet_ok. cbn [map]. split; [lia|]. split; [constructor|].
    split; [intros r c v []|intros r Hr; lia]. }
  unfold create_excel_file, excel_values.
  do 5 next_write. rewrite <- !app_assoc. cbv zeta.
  apply (written_after_row [] 1
           [ (1, lit "Number"); (2, lit "Title"); (3, lit "Type");
             (4, lit "Verse"); (5, lit "Content") ]);
    [exact H0|columns|columns|columns| |].
  { cbn [map snd existsb]. rewrite R, R0, R1, R2, R3. reflexivity. }
  intros Hok.
  destruct (title book_data) as [|c t]; cbn [is_empty negb].
  - apply (written_then _ _ [] _ 0 _ (Some _)
             (fun acc => add_song_rows refused (songs book_data)
                           (fst acc) (snd acc)));
      [apply written_done, Hok|].
    intros ws1 row1 H1. apply add_song_rows_written, H1.
  - do 2 next_write. rewrite <- !app_assoc.
    apply (written_then _ _ [lit "MAIN TITLE"; c :: t] _ 1 _ (Some _)
             (fun acc => add_song_rows refused (songs book_data)
                           (fst acc) (snd acc))).
    + apply (written_after_row _ 2
               [ (3, lit "MAIN TITLE"); (5, c :: t) ] [] 0);
        [exact Hok|columns|columns|columns| |].
      * cbn [map snd existsb]. rewrite R4, R5. reflexivity.
      * intros Hok1. apply written_done, Hok1.
    + intros ws1 row1 H1. apply add_song_rows_written, H1.
Qed.

End ExcelFacts.

(** X19: [create_excel_file] reaches [wb.save] exactly when none of the
    values it has to write is refused by the library; a refused value
    raises and nothing is saved.  In the worksheet that is saved the
    values are the ones to write, in order, no cell is written twice,
    every write falls in columns 1 to 5 of the rows before the next free
    row, each of these rows has its type column (3) written, and the next
    free row is 2, plus 1 for a title, plus for each song 1 and its number
    of verses and 1 more for a chorus. *)
Theorem excel_sheet_layout (refused : str -> bool) (book_data : structure) :
  match create_excel_file refused book_data with
  | Some (ws, row) =>
      existsb refused (excel_values book_data) = false
      /\ map cell_value ws = excel_values book_data
      /\ sheet_ok (ws, row)
      /\ row = 2 + (if is_empty (title book_data) then 0 else 1)
               + list_sum (map song_rows (songs book_data))
  | None => existsb refused (excel_values book_data) = true
  end.
Proof.
  pose proof (create_excel_file_written refused book_data) as H.
  unfold written in H.
  destruct (create_excel_file refused book_data) as [[ws row]|]; [|exact H].
  destruct H as [E [M [S' R]]].
  split; [exact E|]. split; [exact M|]. split; [exact S'|]. lia.
Qed.

(** A verse line of [control_character_text] holds U+0001, which the
    cleaning and the detector keep and the worksheet refuses: no Excel
    file is saved for this text. *)
Example control_character_stops_excel :
  option_map (create_excel_file illegal_characters)
    (detect_structure basic_latin
       (clean_musical_notation basic_latin control_character_text))
  = Some None.
Proof. vm_compute. reflexivity. Qed.

(** For [boundary_input], free of control characters, the worksheet has
    the header row, the row of the song and the row of its verse. *)
Example boundary_input_worksheet :
  option_map
    (fun book =>
       option_map (fun acc => (map coordinates (fst acc), snd acc))
         (create_excel_file illegal_characters book))
    (detect_structure basic_latin boundary_input)
  = Some (Some ([ (1, 1); (1, 2); (1, 3); (1, 4); (1, 5);
                  (2, 1); (2, 2); (2, 3);
                  (3, 1); (3, 3); (3, 4); (3, 5) ], 4)).
Proof. vm_compute. reflexivity. Qed.

(** ** Cleaning, then detecting *)

(** X20: when [detect_structure] is given a cleaned text, as it is by
    the extractor, the [total_lines] of its metadata is the number of
    lines that the cleaning kept. *)
Theorem total_lines_of_cleaned_text (db : UnicodeDB) (text : str) :
  exists doc,
    detect_structure db (clean_musical_notation db text) = Some doc
    /\ total_lines doc = length (kept db text).
Proof.
  destruct (detect_structure_inv db (fun _ => True)
              (clean_musical_notation db text)) as [st [_ [H _]]]; auto.
  eexists. split; [exact H|].
  unfold finish. cbn [total_lines].
  unfold clean_musical_notation. fold (kept db text).
  pose proof (cleaned_lines_stored db _ (split_on_line_feed_free text)) as Hs.
  fold (kept db text) in Hs.
  destruct (kept db text) as [|k ks] eqn:K; [reflexivity|].
  rewrite split_on_join.
  - assert (G : forall ls,
              Forall (fun l => stored_line db l /\ line_feed_free l
                               /\ _has_valid_content db l = true) ls ->
              length (filter (fun l => negb (is_empty (strip db l))) ls)
              = length ls).
    { induction ls as [|l ls IH]; intros F; [reflexivity|].
      inversion F as [|x xs [[Hne Hno] _] Fs]. subst. simpl.
      rewrite (strip_fixed db _ Hno).
      destruct l; [congruence|]. simpl. rewrite IH by exact Fs.
      reflexivity. }
    apply G, Hs.
  - discriminate.
  - eapply Forall_impl; [|exact Hs]. intros l [_ [Hlf _]]. exact Hlf.
Qed.
